(** * lotus.cache: the in-memory and the SQLite-backed caches

    A shallow embedding of [src/lotus/cache.py].  Methods are computations
    in a small monad [Py] that reads the ambient process state (the global
    [lotus.settings] and the wall clock), threads the receiver [self] and may
    raise a Python exception. *)

From Stdlib Require Import ZArith List String Bool Lia Permutation Sorted.
Import ListNotations.

Local Open Scope Z_scope.

(** ** Ambient state, exceptions and the method monad *)

(** [lotus.settings]: only [enable_cache] is read by the cache module. *)
Record Settings := { enable_cache : bool }.

(** What a method call reads from outside its receiver: the settings
    singleton and [int(time.time())], the wall clock in whole seconds. *)
Record Env := { lotus_settings : Settings; time_time : Z }.

Inductive exn := KeyError | PicklingError | UnpicklingError.

Inductive outcome (A : Type) :=
| Returned (a : A)
| Raised (e : exn).
Arguments Returned {A} a.
Arguments Raised {A} e.

(** A method body: reads [Env], updates the receiver of type [S], and
    either returns or raises.  The receiver is kept on both paths, as
    Python keeps attribute updates made before a [raise]. *)
Definition Py (S A : Type) : Type := Env -> S -> outcome A * S.

Definition ret {S A} (a : A) : Py S A := fun _ self => (Returned a, self).

Definition raise {S A} (e : exn) : Py S A := fun _ self => (Raised e, self).

Definition bind {S A B} (c : Py S A) (k : A -> Py S B) : Py S B :=
  fun env self =>
    match c env self with
    | (Returned a, self') => k a env self'
    | (Raised e, self') => (Raised e, self')
    end.

Notation "x <- c ;; k" := (bind c (fun x => k))
  (at level 61, c at next level, right associativity).
Notation "c ;;; k" := (bind c (fun _ => k))
  (at level 61, right associativity).

Definition self_ {S} : Py S S := fun _ self => (Returned self, self).

Definition put {S} (self' : S) : Py S unit := fun _ _ => (Returned tt, self').

Definition settings {S} : Py S Settings :=
  fun env self => (Returned (lotus_settings env), self).

Definition lift {S A} (o : outcome A) : Py S A := fun _ self => (o, self).

(** The receiver after a call, and what the call returned or raised. *)
Definition state_after {S A} (c : Py S A) (env : Env) (self : S) : S :=
  snd (c env self).

Definition result_of {S A} (c : Py S A) (env : Env) (self : S) : outcome A :=
  fst (c env self).

(** [require_cache_enabled]: the decorator.  The wrapper returns [None]
    without calling [func] when [lotus.settings.enable_cache] is false.
    A Python value is [option Value], [None] being Python's [None]. *)
Definition require_cache_enabled {S Value} (func : Py S (option Value))
  : Py S (option Value) :=
  s <- settings ;;
  if negb (enable_cache s) then ret None else func.

(** [pickle.dumps] and [pickle.loads] on the values the caller stores.
    [dumps] raises on an object that cannot be pickled; what it returns
    loads back to the object. *)
Class Pickle (Value Blob : Type) := {
  dumps : option Value -> outcome Blob;
  loads : Blob -> outcome (option Value);
  loads_dumps : forall v b, dumps v = Returned b -> loads b = Returned v
}.

(** The abstract class [Cache]: the three calls every backend takes. *)
Inductive Call (Value : Type) :=
| Get (key : string)
| Insert (key : string) (value : option Value)
| Reset (max_size : option Z).
Arguments Get {Value} key.
Arguments Insert {Value} key value.
Arguments Reset {Value} max_size.

(** ** collections.OrderedDict, as far as the cache uses it *)

Module OrderedDict.
Section Defs.
Context {V : Type}.

(** Items in iteration order: first inserted first. *)
Definition t := list (string * V).

Definition empty : t := [].

Definition len (d : t) : Z := Z.of_nat (List.length d).

(** [key in d] *)
Fixpoint contains (k : string) (d : t) : bool :=
  match d with
  | [] => false
  | (k', _) :: d' => if String.eqb k' k then true else contains k d'
  end.

(** [d.get(key)], before the default is substituted *)
Fixpoint get (k : string) (d : t) : option V :=
  match d with
  | [] => None
  | (k', v) :: d' => if String.eqb k' k then Some v else get k d'
  end.

(** [d[key] = value]: an existing key keeps its position, a new key goes
    to the end. *)
Fixpoint setitem (k : string) (v : V) (d : t) : t :=
  match d with
  | [] => [(k, v)]
  | (k', v') :: d' =>
      if String.eqb k' k then (k', v) :: d' else (k', v') :: setitem k v d'
  end.

(** [d.popitem(last=...)]: [KeyError] on an empty dictionary. *)
Definition popitem (last : bool) (d : t) : outcome ((string * V) * t) :=
  if last then
    match rev d with
    | [] => Raised KeyError
    | kv :: r => Returned (kv, rev r)
    end
  else
    match d with
    | [] => Raised KeyError
    | kv :: d' => Returned (kv, d')
    end.

Definition clear (d : t) : t := [].

Definition keys (d : t) : list string := map fst d.
End Defs.
Arguments t V : clear implicits.
End OrderedDict.

(** ** class InMemoryCache(Cache) *)

Module InMemoryCache.
Section Defs.
Context {Value : Type}.
Local Abbreviation Any := (option Value).

Record t := mk { max_size : Z; cache : OrderedDict.t Any }.

(** [Cache.__init__] stores [max_size] as given; the subclass adds an
    empty [OrderedDict]. *)
Definition __init__ (max_size : Z) : outcome t :=
  Returned {| max_size := max_size; cache := OrderedDict.empty |}.

(** The logger call of the source has no effect on the cache and is
    left out. *)
Definition get (key : string) : Py t Any :=
  require_cache_enabled (
    self <- self_ ;;
    ret (match OrderedDict.get key (cache self) with
         | Some v => v
         | None => None
         end)).

Definition insert (key : string) (value : Any) : Py t Any :=
  require_cache_enabled (
    self <- self_ ;;
    put (mk (max_size self) (OrderedDict.setitem key value (cache self))) ;;;
    self <- self_ ;;
    if OrderedDict.len (cache self) >? max_size self then
      match OrderedDict.popitem false (cache self) with
      | Returned (_, d) => put (mk (max_size self) d) ;;; ret None
      | Raised e => raise e
      end
    else ret None).

Definition reset (new_max_size : option Z) : Py t Any :=
  self <- self_ ;;
  put (mk (max_size self) (OrderedDict.clear (cache self))) ;;;
  match new_max_size with
  | Some n => self <- self_ ;; put (mk n (cache self))
  | None => ret tt
  end ;;;
  ret None.

Definition count (self : t) : Z := OrderedDict.len (cache self).

Definition perform (m : Call Value) : Py t Any :=
  match m with
  | Get k => get k
  | Insert k v => insert k v
  | Reset n => reset n
  end.

(** The caches a program can hold: built by the constructor, then used
    through the three methods, under any settings. *)
Inductive reachable : t -> Prop :=
| reachable_init n c : __init__ n = Returned c -> reachable c
| reachable_call c env m :
    reachable c -> reachable (state_after (perform m) env c).
End Defs.
Arguments t Value : clear implicits.
End InMemoryCache.

(** ** class SQLiteCache(Cache) *)

Module SQLiteCache.
Section Defs.
Context {Value Blob : Type} `{Pickle Value Blob}.
Local Abbreviation Any := (option Value).

(** A row of table [cache (key TEXT PRIMARY KEY, value BLOB,
    last_accessed INTEGER)]. *)
Record Row := mkRow { key : string; value : Blob; last_accessed : Z }.

(** The table, rows in rowid order.  [conn] stands for the connection
    and the store file behind it. *)
Record t := mk { max_size : Z; conn : list Row }.

(** *** The SQL statements the class executes *)

(** [SELECT value FROM cache WHERE key = ?], then [fetchone()] *)
Fixpoint select_value (k : string) (rows : list Row) : option Blob :=
  match rows with
  | [] => None
  | r :: rows' => if String.eqb (key r) k then Some (value r)
                  else select_value k rows'
  end.

(** [UPDATE cache SET last_accessed = ? WHERE key = ?] *)
Definition update_last_accessed (now : Z) (k : string) (rows : list Row)
  : list Row :=
  map (fun r => if String.eqb (key r) k then mkRow (key r) (value r) now
                else r) rows.

(** [INSERT OR REPLACE INTO cache (key, value, last_accessed) VALUES
    (?, ?, ?)]: the row that holds the key, if any, is deleted and the new
    row is stored under a fresh rowid, larger than every rowid in use. *)
Definition insert_or_replace (k : string) (b : Blob) (now : Z)
  (rows : list Row) : list Row :=
  filter (fun r => negb (String.eqb (key r) k)) rows ++ [mkRow k b now].

(** [SELECT COUNT( * ) FROM cache] *)
Definition select_count (rows : list Row) : Z := Z.of_nat (List.length rows).

(** [ORDER BY last_accessed ASC].  SQLite runs this ORDER BY, which comes
    with a LIMIT, through a temporary b-tree keyed by the ORDER BY
    expression and the sequence number of the row in the table scan, so
    rows of equal [last_accessed] stay in scan order, that is in rowid
    order: a stable sort. *)
Fixpoint order_insert (r : Row) (sorted : list Row) : list Row :=
  match sorted with
  | [] => [r]
  | x :: rest =>
      if last_accessed r <=? last_accessed x then r :: x :: rest
      else x :: order_insert r rest
  end.

Fixpoint order_by_last_accessed (rows : list Row) : list Row :=
  match rows with
  | [] => []
  | r :: rows' => order_insert r (order_by_last_accessed rows')
  end.

(** [LIMIT ?]: a negative bound means no bound in SQLite. *)
Definition limit {A} (n : Z) (l : list A) : list A :=
  if n <? 0 then l else firstn (Z.to_nat n) l.

(** [SELECT key FROM cache ORDER BY last_accessed ASC LIMIT ?] *)
Definition select_key_order_by_last_accessed_limit (n : Z)
  (rows : list Row) : list string :=
  limit n (map key (order_by_last_accessed rows)).

(** [DELETE FROM cache WHERE key IN (...)] *)
Definition delete_where_key_in (ks : list string) (rows : list Row)
  : list Row :=
  filter (fun r => negb (existsb (String.eqb (key r)) ks)) rows.

(** *** The methods *)

(** [__init__]: [db] is what the store file at [cache_dir] holds when it
    is opened, nothing for a new file; [CREATE TABLE IF NOT EXISTS] keeps
    it.  Failures of the file system are outside this model. *)
Definition __init__ (max_size : Z) (db : list Row) : outcome t :=
  Returned {| max_size := max_size; conn := db |}.

Definition _get_time : Py t Z :=
  fun env self => (Returned (time_time env), self).

Definition get (k : string) : Py t Any :=
  require_cache_enabled (
    self <- self_ ;;
    match select_value k (conn self) with
    | Some blob =>
        v <- lift (loads blob) ;;
        now <- _get_time ;;
        put (mk (max_size self) (update_last_accessed now k (conn self))) ;;;
        ret v
    | None => ret None
    end).

(** [num_to_delete] goes to [LIMIT ?] as the integer it is.  sqlite3 binds
    it as a 64-bit INTEGER and refuses a value above [2^63 - 1], which
    takes a [max_size] below [count - 2^63]; that refusal is outside this
    model, and no statement below relies on such a [max_size]. *)
Definition _enforce_size_limit : Py t unit :=
  self <- self_ ;;
  let count := select_count (conn self) in
  if count >? max_size self then
    let num_to_delete := count - max_size self in
    put (mk (max_size self)
           (delete_where_key_in
              (select_key_order_by_last_accessed_limit num_to_delete
                 (conn self))
              (conn self)))
  else ret tt.

Definition insert (k : string) (v : Any) : Py t Any :=
  require_cache_enabled (
    pickled_value <- lift (dumps v) ;;
    now <- _get_time ;;
    self <- self_ ;;
    put (mk (max_size self)
           (insert_or_replace k pickled_value now (conn self))) ;;;
    _enforce_size_limit ;;;
    ret None).

Definition reset (new_max_size : option Z) : Py t Any :=
  self <- self_ ;;
  put (mk (max_size self) []) ;;;
  match new_max_size with
  | Some n => self <- self_ ;; put (mk n (conn self))
  | None => ret tt
  end ;;;
  ret None.

Definition count (self : t) : Z := select_count (conn self).

Definition keys (self : t) : list string := map key (conn self).

(** The PRIMARY KEY constraint: no two rows hold the same key. *)
Definition unique_keys (rows : list Row) : Prop := NoDup (map key rows).

(** No row was stamped after clock reading [now]: what a clock that never
    runs backwards leaves in the store. *)
Definition not_after (now : Z) (rows : list Row) : Prop :=
  Forall (fun r => last_accessed r <= now) rows.

(** [r1] was accessed no later than [r2]. *)
Definition older (r1 r2 : Row) : Prop := last_accessed r1 <= last_accessed r2.

Definition perform (m : Call Value) : Py t Any :=
  match m with
  | Get k => get k
  | Insert k v => insert k v
  | Reset n => reset n
  end.

(** The caches a program can hold while the clock never runs backwards,
    with the latest clock reading seen: opened on a new store file or on
    the store an earlier cache left, then used through the three methods,
    under any settings. *)
Inductive reachable : Z -> t -> Prop :=
| reachable_new n now c : __init__ n [] = Returned c -> reachable now c
| reachable_reopen n now c c' :
    reachable now c -> __init__ n (conn c) = Returned c' -> reachable now c'
| reachable_call now c env m :
    reachable now c -> now <= time_time env ->
    reachable (time_time env) (state_after (perform m) env c).
End Defs.
Arguments Row Blob : clear implicits.
Arguments t Blob : clear implicits.
End SQLiteCache.

(** ** Vocabulary of the statements *)

(** The process state in which a call is made at clock reading [now], with
    caching switched on or off. *)
Definition enabled (now : Z) : Env :=
  {| lotus_settings := {| enable_cache := true |}; time_time := now |}.

Definition disabled (now : Z) : Env :=
  {| lotus_settings := {| enable_cache := false |}; time_time := now |}.

(** The receiver after each call of a sequence, every call made in its own
    process state. *)
Fixpoint states_after {S A} (calls : list (Env * Py S A)) (self : S)
  : list S :=
  match calls with
  | [] => []
  | (env, c) :: rest =>
      let self' := state_after c env self in
      self' :: states_after rest self'
  end.

(** The receiver after the whole sequence. *)
Definition final_state {S A} (calls : list (Env * Py S A)) (self : S) : S :=
  fold_left (fun s '(env, c) => state_after c env s) calls self.

(** A small universe of stored objects for the worked examples: integers,
    which pickle, and function objects, which do not. *)
Inductive PyVal := PyInt (z : Z) | PyLambda.

Definition toy_dumps (v : option PyVal) : outcome (option Z) :=
  match v with
  | None => Returned None
  | Some (PyInt z) => Returned (Some z)
  | Some PyLambda => Raised PicklingError
  end.

Definition toy_loads (b : option Z) : outcome (option PyVal) :=
  Returned (option_map PyInt b).

#[export] Instance toy_pickle : Pickle PyVal (option Z).
Proof.
  refine {| dumps := toy_dumps; loads := toy_loads |}.
  intros v b Hd. destruct v as [[z|]|]; simpl in Hd; inversion Hd; reflexivity.
Defined.

(** * Proofs *)

(** ** The enable gate *)

Lemma require_cache_enabled_off {S Value} (func : Py S (option Value))
  (env : Env) (self : S) :
  enable_cache (lotus_settings env) = false ->
  require_cache_enabled func env self = (Returned None, self).
Proof.
  intros Hoff. unfold require_cache_enabled, bind, settings, ret.
  now rewrite Hoff.
Qed.

Lemma require_cache_enabled_on {S Value} (func : Py S (option Value))
  (env : Env) (self : S) :
  enable_cache (lotus_settings env) = true ->
  require_cache_enabled func env self = func env self.
Proof.
  intros Hon. unfold require_cache_enabled, bind, settings.
  now rewrite Hon.
Qed.

(** ** OrderedDict *)

Section OrderedDictFacts.
Context {V : Type}.
Implicit Types (d : OrderedDict.t V) (k : string) (v : V).

Lemma setitem_nonempty k v d : OrderedDict.setitem k v d <> [].
Proof.
  destruct d as [|[k' v'] d]; simpl; [discriminate|].
  destruct (String.eqb k' k); discriminate.
Qed.

Lemma setitem_length k v d :
  List.length (OrderedDict.setitem k v d) =
  if OrderedDict.contains k d then List.length d else S (List.length d).
Proof.
  induction d as [|[k' v'] d IH]; simpl; [reflexivity|].
  destruct (String.eqb k' k); simpl; [reflexivity|].
  rewrite IH. now destruct (OrderedDict.contains k d).
Qed.

Lemma get_setitem_same k v d :
  OrderedDict.get k (OrderedDict.setitem k v d) = Some v.
Proof.
  induction d as [|[k' v'] d IH]; simpl.
  - now rewrite String.eqb_refl.
  - destruct (String.eqb k' k) eqn:E; simpl; now rewrite E.
Qed.

Lemma get_setitem_other k k' v d :
  k <> k' ->
  OrderedDict.get k' (OrderedDict.setitem k v d) = OrderedDict.get k' d.
Proof.
  intros Hne. induction d as [|[k0 v0] d IH]; simpl.
  - apply String.eqb_neq in Hne. now rewrite Hne.
  - destruct (String.eqb k0 k) eqn:E; simpl.
    + apply String.eqb_eq in E. subst k0.
      apply String.eqb_neq in Hne. now rewrite Hne.
    + now rewrite IH.
Qed.

Lemma contains_setitem_same k v d :
  OrderedDict.contains k (OrderedDict.setitem k v d) = true.
Proof.
  induction d as [|[k' v'] d IH]; simpl.
  - now rewrite String.eqb_refl.
  - destruct (String.eqb k' k) eqn:E; simpl; now rewrite E.
Qed.


(** When the first item is dropped from a dictionary of two or more items
    the item just stored survives, unless it was the first one. *)
Lemma get_tl_setitem_new k v d :
  OrderedDict.contains k d = false -> d <> [] ->
  OrderedDict.get k (tl (OrderedDict.setitem k v d)) = Some v.
Proof.
  destruct d as [|[k' v'] d]; simpl; [congruence|].
  destruct (String.eqb k' k) eqn:E; [discriminate|]. simpl.
  intros _ _. apply get_setitem_same.
Qed.
End OrderedDictFacts.

(** ** InMemoryCache, call by call *)

Section InMemoryFacts.
Context {Value : Type}.
Implicit Types (c : InMemoryCache.t Value) (k : string) (v : option Value).

Lemma im_get_on k env c :
  enable_cache (lotus_settings env) = true ->
  InMemoryCache.get k env c =
  (Returned (match OrderedDict.get k (InMemoryCache.cache c) with
             | Some v => v
             | None => None
             end), c).
Proof.
  intros Hon. unfold InMemoryCache.get.
  now rewrite require_cache_enabled_on.
Qed.

(** Whatever the settings, [get] leaves the receiver as it was. *)
Lemma im_get_state k env c : state_after (InMemoryCache.get k) env c = c.
Proof.
  unfold state_after.
  destruct (enable_cache (lotus_settings env)) eqn:E.
  - now rewrite im_get_on.
  - unfold InMemoryCache.get. now rewrite require_cache_enabled_off.
Qed.

Lemma im_insert_on k v env c :
  enable_cache (lotus_settings env) = true ->
  InMemoryCache.insert k v env c =
  (Returned None,
   let d := OrderedDict.setitem k v (InMemoryCache.cache c) in
   InMemoryCache.mk (InMemoryCache.max_size c)
     (if OrderedDict.len d >? InMemoryCache.max_size c then tl d else d)).
Proof.
  intros Hon. unfold InMemoryCache.insert.
  rewrite require_cache_enabled_on by assumption.
  unfold bind, self_, put, ret, raise. simpl.
  destruct (OrderedDict.len _ >? _); [|reflexivity].
  pose proof (setitem_nonempty k v (InMemoryCache.cache c)) as Hne.
  destruct (OrderedDict.setitem k v (InMemoryCache.cache c)); [congruence|].
  reflexivity.
Qed.

Lemma im_reset n env c :
  InMemoryCache.reset n env c =
  (Returned None,
   InMemoryCache.mk (match n with
                     | Some m => m
                     | None => InMemoryCache.max_size c
                     end) []).
Proof. destruct n; reflexivity. Qed.

(** One enabled insert into a cache that respects its bound. *)
Lemma im_insert_count k v env c :
  enable_cache (lotus_settings env) = true ->
  0 <= InMemoryCache.max_size c ->
  InMemoryCache.count c <= InMemoryCache.max_size c ->
  InMemoryCache.count (state_after (InMemoryCache.insert k v) env c)
  <= InMemoryCache.max_size c.
Proof.
  intros Hon Hpos Hle. unfold state_after. rewrite im_insert_on by assumption.
  cbn [snd]. unfold InMemoryCache.count, OrderedDict.len in *. cbn zeta.
  cbn [InMemoryCache.cache InMemoryCache.max_size].
  pose proof (setitem_length k v (InMemoryCache.cache c)) as Hlen.
  destruct (Z.gtb_spec
              (Z.of_nat (List.length
                 (OrderedDict.setitem k v (InMemoryCache.cache c))))
              (InMemoryCache.max_size c)) as [Hgt|Hle'].
  - destruct (OrderedDict.setitem k v (InMemoryCache.cache c)) as [|kv d];
      simpl in *; [lia|].
    destruct (OrderedDict.contains k (InMemoryCache.cache c)); lia.
  - exact Hle'.
Qed.

Lemma im_insert_max_size k v env c :
  InMemoryCache.max_size (state_after (InMemoryCache.insert k v) env c)
  = InMemoryCache.max_size c.
Proof.
  unfold state_after.
  destruct (enable_cache (lotus_settings env)) eqn:E.
  - now rewrite im_insert_on.
  - unfold InMemoryCache.insert. now rewrite require_cache_enabled_off.
Qed.

(** With room for one entry at least, the entry just stored is not the one
    that is dropped. *)
Lemma im_insert_lookup k v env c :
  enable_cache (lotus_settings env) = true ->
  1 <= InMemoryCache.max_size c ->
  InMemoryCache.count c <= InMemoryCache.max_size c ->
  OrderedDict.get k
    (InMemoryCache.cache (state_after (InMemoryCache.insert k v) env c))
  = Some v.
Proof.
  intros Hon Hpos Hle. unfold state_after. rewrite im_insert_on by assumption.
  cbn [snd]. cbn zeta. cbn [InMemoryCache.cache].
  unfold InMemoryCache.count, OrderedDict.len in *.
  pose proof (setitem_length k v (InMemoryCache.cache c)) as Hlen.
  destruct (Z.gtb_spec
              (Z.of_nat (List.length
                 (OrderedDict.setitem k v (InMemoryCache.cache c))))
              (InMemoryCache.max_size c)) as [Hgt|Hle'].
  - destruct (OrderedDict.contains k (InMemoryCache.cache c)) eqn:Hc.
    + lia.
    + apply get_tl_setitem_new; [assumption|].
      destruct (InMemoryCache.cache c); [simpl in *; lia|discriminate].
  - apply get_setitem_same.
Qed.

(** Storing under a key that is present changes neither the number of
    entries nor their order. *)
Lemma im_insert_present k v env c :
  enable_cache (lotus_settings env) = true ->
  InMemoryCache.count c <= InMemoryCache.max_size c ->
  OrderedDict.contains k (InMemoryCache.cache c) = true ->
  state_after (InMemoryCache.insert k v) env c =
  InMemoryCache.mk (InMemoryCache.max_size c)
    (OrderedDict.setitem k v (InMemoryCache.cache c)).
Proof.
  intros Hon Hle Hc. unfold state_after. rewrite im_insert_on by assumption.
  cbn [snd]. cbn zeta. unfold InMemoryCache.count, OrderedDict.len in *.
  pose proof (setitem_length k v (InMemoryCache.cache c)) as Hlen.
  rewrite Hc in Hlen. rewrite Hlen.
  destruct (Z.gtb_spec (Z.of_nat (List.length (InMemoryCache.cache c)))
              (InMemoryCache.max_size c)); [lia|reflexivity].
Qed.
End InMemoryFacts.

(** ** The SQL statements of SQLiteCache *)

Lemma NoDup_app_disjoint {A} (l1 l2 : list A) (a : A) :
  NoDup (l1 ++ l2) -> In a l1 -> In a l2 -> False.
Proof.
  induction l1 as [|x l1 IH]; simpl; intros Hnd H1 H2; [contradiction|].
  inversion Hnd as [|? ? Hx Hnd']; subst.
  destruct H1 as [->|H1]; [|now apply IH].
  apply Hx, in_or_app. now right.
Qed.

Section SQLiteRows.
Context {Blob : Type}.
Implicit Types (r : SQLiteCache.Row Blob) (rows : list (SQLiteCache.Row Blob))
  (k : string).

Local Abbreviation key := (@SQLiteCache.key Blob).
Local Abbreviation stamp := (@SQLiteCache.last_accessed Blob).
Local Abbreviation older := (@SQLiteCache.older Blob).

Lemma order_insert_perm r rows :
  Permutation (SQLiteCache.order_insert r rows) (r :: rows).
Proof.
  induction rows as [|x rest IH]; simpl; [reflexivity|].
  destruct (stamp r <=? stamp x); [reflexivity|].
  rewrite IH. apply perm_swap.
Qed.

Lemma order_by_perm rows :
  Permutation (SQLiteCache.order_by_last_accessed rows) rows.
Proof.
  induction rows as [|r rows IH]; simpl; [reflexivity|].
  rewrite order_insert_perm. now constructor.
Qed.

Lemma order_insert_sorted r rows :
  StronglySorted older rows ->
  StronglySorted older (SQLiteCache.order_insert r rows).
Proof.
  induction 1 as [|x rest Hs IH Hx]; simpl.
  - constructor; constructor.
  - destruct (Z.leb_spec (stamp r) (stamp x)) as [Hle|Hgt].
    + constructor; [constructor; assumption|].
      constructor; [exact Hle|].
      eapply Forall_impl; [|exact Hx].
      intros y Hy. unfold SQLiteCache.older in *. lia.
    + constructor; [exact IH|].
      eapply Permutation_Forall;
        [symmetry; apply order_insert_perm|].
      constructor; [|exact Hx].
      unfold SQLiteCache.older. lia.
Qed.

Lemma order_by_sorted rows :
  StronglySorted older (SQLiteCache.order_by_last_accessed rows).
Proof.
  induction rows as [|r rows IH]; simpl; [constructor|].
  now apply order_insert_sorted.
Qed.

(** Stability: rows that come in ascending order stay as they are. *)
Lemma order_by_sorted_id rows :
  StronglySorted older rows ->
  SQLiteCache.order_by_last_accessed rows = rows.
Proof.
  induction 1 as [|x rest Hs IH Hx]; simpl; [reflexivity|].
  rewrite IH. destruct rest as [|y rest]; simpl; [reflexivity|].
  inversion Hx as [|? ? Hxy _]; subst. unfold SQLiteCache.older in Hxy.
  destruct (Z.leb_spec (stamp x) (stamp y)); [reflexivity|lia].
Qed.

(** Stability again: a last row that is as young as any other is sorted
    last. *)
Lemma order_insert_app_last r x rows :
  stamp r <= stamp x ->
  SQLiteCache.order_insert r (rows ++ [x]) =
  SQLiteCache.order_insert r rows ++ [x].
Proof.
  intros Hle. induction rows as [|y rows IH]; simpl.
  - destruct (Z.leb_spec (stamp r) (stamp x)); [reflexivity|lia].
  - destruct (stamp r <=? stamp y); [reflexivity|]. now rewrite IH.
Qed.

Lemma order_by_app_last x rows :
  Forall (fun r => stamp r <= stamp x) rows ->
  SQLiteCache.order_by_last_accessed (rows ++ [x]) =
  SQLiteCache.order_by_last_accessed rows ++ [x].
Proof.
  induction 1 as [|r rows Hr Hrows IH]; simpl; [reflexivity|].
  rewrite IH. now apply order_insert_app_last.
Qed.

Lemma strongly_sorted_split (l1 l2 : list (SQLiteCache.Row Blob)) :
  StronglySorted older (l1 ++ l2) ->
  forall a b, In a l1 -> In b l2 -> older a b.
Proof.
  induction l1 as [|x l1 IH]; simpl; intros Hs a b Ha Hb; [contradiction|].
  inversion Hs as [|? ? Hs' Hx]; subst.
  destruct Ha as [->|Ha].
  - rewrite Forall_forall in Hx. apply Hx, in_or_app. now right.
  - now apply IH.
Qed.

Lemma existsb_eqb_In k (ks : list string) :
  existsb (String.eqb k) ks = true <-> In k ks.
Proof.
  rewrite existsb_exists. split.
  - intros [x [Hin Heq]]. apply String.eqb_eq in Heq. now subst.
  - intros Hin. exists k. split; [assumption|apply String.eqb_refl].
Qed.

Lemma delete_where_key_in_In ks r rows :
  In r (SQLiteCache.delete_where_key_in ks rows) <->
  In r rows /\ ~ In (key r) ks.
Proof.
  unfold SQLiteCache.delete_where_key_in. rewrite filter_In.
  rewrite negb_true_iff, <- not_true_iff_false, existsb_eqb_In. tauto.
Qed.

Lemma unique_keys_inj rows r1 r2 :
  SQLiteCache.unique_keys rows ->
  In r1 rows -> In r2 rows -> key r1 = key r2 -> r1 = r2.
Proof.
  unfold SQLiteCache.unique_keys.
  induction rows as [|x rows IH]; simpl; [contradiction|].
  intros Hnd H1 H2 Hk. inversion Hnd as [|? ? Hx Hnd']; subst.
  destruct H1 as [->|H1], H2 as [->|H2].
  - reflexivity.
  - exfalso. apply Hx. rewrite Hk. now apply in_map.
  - exfalso. apply Hx. rewrite <- Hk. now apply in_map.
  - now apply IH.
Qed.

Lemma unique_keys_perm rows rows' :
  Permutation rows rows' ->
  SQLiteCache.unique_keys rows -> SQLiteCache.unique_keys rows'.
Proof.
  unfold SQLiteCache.unique_keys. intros Hp.
  apply Permutation_NoDup. now apply Permutation_map.
Qed.

(** With unique keys, the rows that [DELETE ... WHERE key IN (SELECT key
    ... ORDER BY last_accessed ASC LIMIT n)] leaves are the rows after the
    first [n] in ascending order. *)
Lemma delete_oldest_In (n : nat) r rows :
  SQLiteCache.unique_keys rows ->
  In r (SQLiteCache.delete_where_key_in
          (firstn n (map key (SQLiteCache.order_by_last_accessed rows))) rows)
  <-> In r (skipn n (SQLiteCache.order_by_last_accessed rows)).
Proof.
  intros Hu. rewrite delete_where_key_in_In.
  pose proof (order_by_perm rows) as Hp.
  assert (Hus : SQLiteCache.unique_keys
                  (SQLiteCache.order_by_last_accessed rows))
    by (eapply unique_keys_perm; [symmetry; exact Hp|exact Hu]).
  set (s := SQLiteCache.order_by_last_accessed rows) in *.
  rewrite firstn_map.
  assert (Hsplit : forall x, In x s <-> In x (firstn n s) \/ In x (skipn n s)).
  { intros x. rewrite <- in_app_iff, firstn_skipn. tauto. }
  split.
  - intros [Hin Hnot].
    apply (Permutation_in _ (Permutation_sym Hp)) in Hin.
    apply Hsplit in Hin. destruct Hin as [Hin|Hin]; [|exact Hin].
    exfalso. apply Hnot. now apply in_map.
  - intros Hin. split.
    + apply (Permutation_in _ Hp). apply Hsplit. now right.
    + intros Hk. apply in_map_iff in Hk. destruct Hk as [x [Hkx Hx]].
      assert (x = r).
      { apply (unique_keys_inj s); try assumption; apply Hsplit; tauto. }
      subst x.
      unfold SQLiteCache.unique_keys in Hus.
      apply NoDup_map_inv in Hus.
      rewrite <- (firstn_skipn n s) in Hus.
      exact (NoDup_app_disjoint _ _ r Hus Hx Hin).
Qed.
Lemma delete_oldest_perm (n : nat) rows :
  SQLiteCache.unique_keys rows ->
  Permutation
    (SQLiteCache.delete_where_key_in
       (firstn n (map key (SQLiteCache.order_by_last_accessed rows))) rows)
    (skipn n (SQLiteCache.order_by_last_accessed rows)).
Proof.
  intros Hu. apply NoDup_Permutation.
  - apply NoDup_filter. exact (NoDup_map_inv key _ Hu).
  - assert (Hs : NoDup (SQLiteCache.order_by_last_accessed rows)).
    { apply (NoDup_map_inv key).
      eapply unique_keys_perm; [symmetry; apply order_by_perm|exact Hu]. }
    rewrite <- (firstn_skipn n) in Hs. exact (NoDup_app_remove_l _ _ Hs).
  - intros r. now apply delete_oldest_In.
Qed.

Lemma limit_nonneg {A} (n : Z) (l : list A) :
  0 <= n -> SQLiteCache.limit n l = firstn (Z.to_nat n) l.
Proof.
  intros Hn. unfold SQLiteCache.limit.
  destruct (Z.ltb_spec n 0); [lia|reflexivity].
Qed.

Lemma unique_keys_filter (f : SQLiteCache.Row Blob -> bool) rows :
  SQLiteCache.unique_keys rows -> SQLiteCache.unique_keys (filter f rows).
Proof.
  unfold SQLiteCache.unique_keys.
  induction rows as [|x rows IH]; simpl; intros Hnd; [constructor|].
  inversion Hnd as [|? ? Hx Hnd']; subst.
  destruct (f x); simpl; [|now apply IH].
  constructor; [|now apply IH].
  intros Hin. apply Hx. apply in_map_iff in Hin.
  destruct Hin as [y [Hy Hin]]. apply filter_In in Hin.
  rewrite <- Hy. apply in_map. tauto.
Qed.

Lemma filter_key_absent k rows :
  ~ In k (map key (filter (fun r => negb (String.eqb (key r) k)) rows)).
Proof.
  intros Hin. apply in_map_iff in Hin. destruct Hin as [y [Hy Hin]].
  apply filter_In in Hin. destruct Hin as [_ Hne].
  rewrite negb_true_iff in Hne. apply String.eqb_neq in Hne. contradiction.
Qed.

Lemma unique_keys_snoc r rows :
  SQLiteCache.unique_keys rows -> ~ In (key r) (map key rows) ->
  SQLiteCache.unique_keys (rows ++ [r]).
Proof.
  unfold SQLiteCache.unique_keys. intros Hnd Hnot. rewrite map_app.
  apply NoDup_app; [assumption|repeat constructor; intros []|].
  intros a Ha [<-|[]]. contradiction.
Qed.

Lemma insert_or_replace_unique k (b : Blob) now rows :
  SQLiteCache.unique_keys rows ->
  SQLiteCache.unique_keys (SQLiteCache.insert_or_replace k b now rows).
Proof.
  intros Hu. unfold SQLiteCache.insert_or_replace.
  apply unique_keys_snoc; [now apply unique_keys_filter|].
  apply filter_key_absent.
Qed.

Lemma select_value_absent k rows :
  ~ In k (map key rows) -> SQLiteCache.select_value k rows = None.
Proof.
  induction rows as [|x rows IH]; simpl; intros Hnot; [reflexivity|].
  destruct (String.eqb_spec (key x) k) as [Heq|Hne]; [tauto|].
  apply IH. tauto.
Qed.

Lemma select_value_app_absent k pre rows :
  ~ In k (map key pre) ->
  SQLiteCache.select_value k (pre ++ rows) = SQLiteCache.select_value k rows.
Proof.
  induction pre as [|x pre IH]; simpl; intros Hnot; [reflexivity|].
  destruct (String.eqb_spec (key x) k) as [Heq|Hne]; [tauto|].
  apply IH. tauto.
Qed.

Lemma select_value_snoc k (b : Blob) now pre :
  ~ In k (map key pre) ->
  SQLiteCache.select_value k (pre ++ [SQLiteCache.mkRow k b now]) = Some b.
Proof.
  intros Hnot. rewrite select_value_app_absent by assumption.
  simpl. now rewrite String.eqb_refl.
Qed.

Lemma filter_drop_key_absent k rows :
  ~ In k (map key rows) ->
  filter (fun r => negb (String.eqb (key r) k)) rows = rows.
Proof.
  induction rows as [|x rows IH]; simpl; intros Hnot; [reflexivity|].
  destruct (String.eqb_spec (key x) k) as [Heq|Hne]; [tauto|].
  simpl. f_equal. apply IH. tauto.
Qed.

(** Over the bound [N], the DELETE of [_enforce_size_limit] spares a last
    row that is as young as any other. *)
Lemma enforce_keeps_last (N : Z) k (b : Blob) now pre :
  1 <= N ->
  SQLiteCache.unique_keys pre -> ~ In k (map key pre) ->
  SQLiteCache.not_after now pre ->
  let new := SQLiteCache.mkRow k b now in
  let up := pre ++ [new] in
  N < SQLiteCache.select_count up ->
  exists pre',
    SQLiteCache.delete_where_key_in
      (SQLiteCache.select_key_order_by_last_accessed_limit
         (SQLiteCache.select_count up - N) up) up
    = pre' ++ [new]
    /\ (forall r, In r pre' -> In r pre)
    /\ SQLiteCache.unique_keys pre' /\ ~ In k (map key pre').
Proof.
  intros HN Hu Hk Hfresh new up Hover.
  assert (Huu : SQLiteCache.unique_keys up)
    by (apply unique_keys_snoc; assumption).
  set (n := SQLiteCache.select_count up - N).
  set (ks := SQLiteCache.select_key_order_by_last_accessed_limit n up).
  exists (SQLiteCache.delete_where_key_in ks pre).
  assert (Hnew : ~ In k ks).
  { destruct (Z.ltb_spec n 0) as [Hneg|Hnn].
    - unfold n in Hneg. lia.
    - assert (Hin : In new (SQLiteCache.delete_where_key_in ks up)).
      { unfold ks, SQLiteCache.select_key_order_by_last_accessed_limit.
        rewrite limit_nonneg by assumption.
        apply delete_oldest_In; [assumption|].
        unfold up. rewrite order_by_app_last by exact Hfresh.
        rewrite skipn_app. apply in_or_app. right.
        replace (Z.to_nat n -
                 List.length (SQLiteCache.order_by_last_accessed pre))%nat
          with 0%nat; [now left|].
        rewrite (Permutation_length (order_by_perm pre)).
        unfold n, SQLiteCache.select_count, up.
        rewrite length_app. simpl. lia. }
      apply delete_where_key_in_In in Hin. exact (proj2 Hin). }
  repeat split.
  - unfold SQLiteCache.delete_where_key_in, up. rewrite filter_app.
    f_equal. simpl.
    destruct (existsb (String.eqb k) ks) eqn:E; [|reflexivity].
    apply existsb_eqb_In in E. contradiction.
  - intros r Hr. apply delete_where_key_in_In in Hr. tauto.
  - now apply unique_keys_filter.
  - intros Hin. apply in_map_iff in Hin. destruct Hin as [y [Hy Hin]].
    apply delete_where_key_in_In in Hin. apply Hk. rewrite <- Hy.
    apply in_map. tauto.
Qed.
End SQLiteRows.

(** ** SQLiteCache, call by call *)

Section SQLiteFacts.
Context {Value Blob : Type} {pickle : Pickle Value Blob}.
Implicit Types (c : SQLiteCache.t Blob) (k : string) (v : option Value)
  (b : Blob).

(** The table that [insert] leaves: the upsert, then the size limit. *)
Local Abbreviation inserted N k b now rows :=
  (let up := SQLiteCache.insert_or_replace k b now rows in
   if SQLiteCache.select_count up >? N then
     SQLiteCache.delete_where_key_in
       (SQLiteCache.select_key_order_by_last_accessed_limit
          (SQLiteCache.select_count up - N) up) up
   else up).

Lemma sq_insert_on k v b env c :
  enable_cache (lotus_settings env) = true ->
  dumps v = Returned b ->
  SQLiteCache.insert k v env c =
  (Returned None,
   SQLiteCache.mk (SQLiteCache.max_size c)
     (inserted (SQLiteCache.max_size c) k b (time_time env)
        (SQLiteCache.conn c))).
Proof.
  intros Hon Hb. unfold SQLiteCache.insert.
  rewrite require_cache_enabled_on by assumption.
  unfold bind, lift, SQLiteCache._get_time, self_, put, ret,
    SQLiteCache._enforce_size_limit.
  rewrite Hb. cbn -[SQLiteCache.insert_or_replace SQLiteCache.select_count
                     SQLiteCache.delete_where_key_in
                     SQLiteCache.select_key_order_by_last_accessed_limit
                     Z.gtb Z.sub].
  destruct (_ >? _); reflexivity.
Qed.

(** A value that cannot be pickled: [insert] raises before it touches the
    table. *)
Lemma sq_insert_raises k v e env c :
  enable_cache (lotus_settings env) = true ->
  dumps v = Raised e ->
  SQLiteCache.insert k v env c = (Raised e, c).
Proof.
  intros Hon Hb. unfold SQLiteCache.insert.
  rewrite require_cache_enabled_on by assumption.
  unfold bind, lift. now rewrite Hb.
Qed.

Lemma sq_get_on k env c :
  enable_cache (lotus_settings env) = true ->
  SQLiteCache.get k env c =
  match SQLiteCache.select_value k (SQLiteCache.conn c) with
  | Some blob =>
      match loads blob with
      | Returned v =>
          (Returned v,
           SQLiteCache.mk (SQLiteCache.max_size c)
             (SQLiteCache.update_last_accessed (time_time env) k
                (SQLiteCache.conn c)))
      | Raised e => (Raised e, c)
      end
  | None => (Returned None, c)
  end.
Proof.
  intros Hon. unfold SQLiteCache.get.
  rewrite require_cache_enabled_on by assumption.
  unfold bind, self_, lift, SQLiteCache._get_time, put, ret.
  destruct (SQLiteCache.select_value k (SQLiteCache.conn c)); [|reflexivity].
  destruct (loads b); reflexivity.
Qed.

Lemma sq_reset n env c :
  SQLiteCache.reset (Value:=Value) n env c =
  (Returned None,
   SQLiteCache.mk (match n with
                   | Some m => m
                   | None => SQLiteCache.max_size c
                   end) []).
Proof. destruct n; reflexivity. Qed.

Lemma sq_insert_max_size k v env c :
  SQLiteCache.max_size (state_after (SQLiteCache.insert k v) env c)
  = SQLiteCache.max_size c.
Proof.
  unfold state_after.
  destruct (enable_cache (lotus_settings env)) eqn:E.
  - destruct (dumps v) eqn:Hb.
    + now rewrite (sq_insert_on _ _ _ _ _ E Hb).
    + now rewrite (sq_insert_raises _ _ _ _ _ E Hb).
  - unfold SQLiteCache.insert. now rewrite require_cache_enabled_off.
Qed.

(** The rows the size limit leaves: the table splits into victims and
    survivors, [count - N] victims, none of them accessed later than a
    survivor. *)
Lemma enforce_split (N : Z) (rows : list (SQLiteCache.Row Blob)) :
  0 <= N -> SQLiteCache.unique_keys rows ->
  N < SQLiteCache.select_count rows ->
  exists victims,
    Permutation rows
      (victims ++
       SQLiteCache.delete_where_key_in
         (SQLiteCache.select_key_order_by_last_accessed_limit
            (SQLiteCache.select_count rows - N) rows) rows)
    /\ Z.of_nat (List.length victims) = SQLiteCache.select_count rows - N
    /\ forall x r, In x victims ->
         In r (SQLiteCache.delete_where_key_in
                 (SQLiteCache.select_key_order_by_last_accessed_limit
                    (SQLiteCache.select_count rows - N) rows) rows) ->
         SQLiteCache.older x r.
Proof.
  intros HN Hu Hover.
  unfold SQLiteCache.select_key_order_by_last_accessed_limit.
  set (n := SQLiteCache.select_count rows - N).
  set (s := SQLiteCache.order_by_last_accessed rows).
  rewrite limit_nonneg by (unfold n; lia).
  pose proof (delete_oldest_perm (Z.to_nat n) rows Hu) as Hp. fold s in Hp.
  exists (firstn (Z.to_nat n) s). repeat split.
  - rewrite Hp, firstn_skipn. symmetry. apply order_by_perm.
  - rewrite length_firstn. unfold s.
    rewrite (Permutation_length (order_by_perm rows)).
    unfold n, SQLiteCache.select_count in *. lia.
  - intros x r Hx Hr. apply (Permutation_in _ Hp) in Hr.
    apply (strongly_sorted_split (firstn (Z.to_nat n) s)
             (skipn (Z.to_nat n) s)); try assumption.
    rewrite firstn_skipn. apply order_by_sorted.
Qed.

Lemma inserted_count (N : Z) k b now (rows : list (SQLiteCache.Row Blob)) :
  0 <= N -> SQLiteCache.unique_keys rows ->
  SQLiteCache.select_count (inserted N k b now rows) <= N.
Proof.
  intros HN Hu. cbn zeta.
  set (up := SQLiteCache.insert_or_replace k b now rows).
  assert (Huu : SQLiteCache.unique_keys up)
    by now apply insert_or_replace_unique.
  destruct (Z.gtb_spec (SQLiteCache.select_count up) N) as [Hgt|Hle];
    [|exact Hle].
  destruct (enforce_split N up HN Huu Hgt) as [victims [Hp [Hlen _]]].
  apply Permutation_length in Hp. rewrite length_app in Hp.
  unfold SQLiteCache.select_count in *. lia.
Qed.

Lemma inserted_unique (N : Z) k b now (rows : list (SQLiteCache.Row Blob)) :
  SQLiteCache.unique_keys rows ->
  SQLiteCache.unique_keys (inserted N k b now rows).
Proof.
  intros Hu. cbn zeta.
  destruct (_ >? _).
  - apply unique_keys_filter. now apply insert_or_replace_unique.
  - now apply insert_or_replace_unique.
Qed.

(** With room for one row at least and a clock that did not run backwards,
    the row just written is the last row of the table [insert] leaves. *)
Lemma inserted_shape (N : Z) k b now (rows : list (SQLiteCache.Row Blob)) :
  1 <= N -> SQLiteCache.unique_keys rows -> SQLiteCache.not_after now rows ->
  exists pre,
    inserted N k b now rows = pre ++ [SQLiteCache.mkRow k b now]
    /\ SQLiteCache.unique_keys pre
    /\ ~ In k (map (@SQLiteCache.key Blob) pre)
    /\ forall r, In r pre -> In r rows.
Proof.
  intros HN Hu Hfresh. cbn zeta. unfold SQLiteCache.insert_or_replace.
  set (pre := filter (fun r => negb (String.eqb (SQLiteCache.key r) k)) rows).
  assert (Hpu : SQLiteCache.unique_keys pre) by now apply unique_keys_filter.
  assert (Hpk : ~ In k (map (@SQLiteCache.key Blob) pre))
    by apply filter_key_absent.
  assert (Hsub : forall r, In r pre -> In r rows)
    by (intros r Hr; apply filter_In in Hr; tauto).
  assert (Hpf : SQLiteCache.not_after now pre).
  { unfold SQLiteCache.not_after in *. rewrite Forall_forall in *.
    intros r Hr. apply Hfresh, Hsub, Hr. }
  destruct (Z.gtb_spec
              (SQLiteCache.select_count (pre ++ [SQLiteCache.mkRow k b now]))
              N) as [Hgt|Hle].
  - destruct (enforce_keeps_last N k b now pre HN Hpu Hpk Hpf Hgt)
      as [pre' [Heq [Hin [Hu' Hk']]]].
    exists pre'. repeat split; try assumption.
    intros r Hr. apply Hsub, Hin, Hr.
  - exists pre. repeat split; assumption.
Qed.
End SQLiteFacts.

(** ** Sequences of calls *)

Lemma states_after_invariant {S A} (I : S -> Prop)
  (calls : list (Env * Py S A)) (self : S) :
  I self ->
  (forall env c s, In (env, c) calls -> I s -> I (state_after c env s)) ->
  Forall I (states_after calls self).
Proof.
  revert self. induction calls as [|[env c] rest IH]; simpl; intros self H0 Hstep.
  - constructor.
  - assert (H1 : I (state_after c env self)) by (apply Hstep; auto).
    constructor; [exact H1|]. apply IH; [exact H1|].
    intros env' c' s Hin. apply Hstep. now right.
Qed.

Section Invariants.
Context {Value Blob : Type} {pickle : Pickle Value Blob}.

(** Any [insert], gated or not, keeps an in-memory cache within a bound
    that is not negative. *)
Lemma im_insert_invariant (N : Z) k (v : option Value) env
  (c : InMemoryCache.t Value) :
  0 <= N ->
  InMemoryCache.max_size c = N /\ InMemoryCache.count c <= N ->
  InMemoryCache.max_size (state_after (InMemoryCache.insert k v) env c) = N
  /\ InMemoryCache.count (state_after (InMemoryCache.insert k v) env c) <= N.
Proof.
  intros HN [Hm Hc]. split; [now rewrite im_insert_max_size|].
  destruct (enable_cache (lotus_settings env)) eqn:E.
  - subst N. now apply im_insert_count.
  - unfold state_after, InMemoryCache.insert.
    now rewrite require_cache_enabled_off.
Qed.

(** The same for the durable cache, whose keys stay unique. *)
Lemma sq_insert_invariant (N : Z) k (v : option Value) env
  (c : SQLiteCache.t Blob) :
  0 <= N ->
  SQLiteCache.max_size c = N /\ SQLiteCache.unique_keys (SQLiteCache.conn c)
  /\ SQLiteCache.count c <= N ->
  let c' := state_after (SQLiteCache.insert k v) env c in
  SQLiteCache.max_size c' = N /\ SQLiteCache.unique_keys (SQLiteCache.conn c')
  /\ SQLiteCache.count c' <= N.
Proof.
  intros HN [Hm [Hu Hc]] c'. subst c'.
  split; [now rewrite sq_insert_max_size|].
  unfold state_after.
  destruct (enable_cache (lotus_settings env)) eqn:E.
  - destruct (dumps v) eqn:Hb.
    + rewrite (sq_insert_on _ _ _ _ _ E Hb). cbn [snd SQLiteCache.conn].
      unfold SQLiteCache.count. cbn [SQLiteCache.conn]. rewrite Hm. split.
      * now apply inserted_unique.
      * now apply inserted_count.
    + rewrite (sq_insert_raises _ _ _ _ _ E Hb). now split.
  - unfold SQLiteCache.insert. rewrite require_cache_enabled_off by assumption.
    now split.
Qed.
End Invariants.

(** ** Reachable caches *)

Section Reachable.
Context {Value Blob : Type} {pickle : Pickle Value Blob}.

(** An in-memory cache that a program can hold is within its bound, and
    empty when the bound is negative. *)
Lemma im_reachable_bound (c : InMemoryCache.t Value) :
  InMemoryCache.reachable c ->
  InMemoryCache.count c <= Z.max 0 (InMemoryCache.max_size c).
Proof.
  induction 1 as [n c Hinit|c env m Hr IH].
  - injection Hinit as <-. cbn. lia.
  - destruct m as [k|k v|n]; cbn [InMemoryCache.perform].
    + now rewrite im_get_state.
    + destruct (enable_cache (lotus_settings env)) eqn:E.
      * destruct (Z.le_gt_cases 0 (InMemoryCache.max_size c)) as [Hpos|Hneg].
        -- rewrite im_insert_max_size.
           pose proof (im_insert_count k v env c E Hpos). lia.
        -- unfold state_after. rewrite im_insert_on by assumption.
           cbn [snd]. cbv zeta.
           unfold InMemoryCache.count, OrderedDict.len in *.
           destruct (InMemoryCache.cache c) as [|kv d]; [|simpl in IH; lia].
           cbn [OrderedDict.setitem List.length].
           destruct (Z.gtb_spec (Z.of_nat 1) (InMemoryCache.max_size c));
             cbn; lia.
      * unfold state_after, InMemoryCache.insert.
        now rewrite require_cache_enabled_off.
    + unfold state_after. rewrite im_reset. cbn. lia.
Qed.

Lemma not_after_mono (now now' : Z) (rows : list (SQLiteCache.Row Blob)) :
  now <= now' -> SQLiteCache.not_after now rows ->
  SQLiteCache.not_after now' rows.
Proof.
  intros Hle. unfold SQLiteCache.not_after. apply Forall_impl.
  intros r Hr. simpl in Hr. lia.
Qed.

Lemma update_last_accessed_keys now k (rows : list (SQLiteCache.Row Blob)) :
  map (@SQLiteCache.key Blob) (SQLiteCache.update_last_accessed now k rows)
  = map (@SQLiteCache.key Blob) rows.
Proof.
  unfold SQLiteCache.update_last_accessed. rewrite map_map.
  apply map_ext. intros r. now destruct (String.eqb (SQLiteCache.key r) k).
Qed.

Lemma update_last_accessed_not_after now now' k
  (rows : list (SQLiteCache.Row Blob)) :
  now <= now' -> SQLiteCache.not_after now rows ->
  SQLiteCache.not_after now' (SQLiteCache.update_last_accessed now' k rows).
Proof.
  intros Hle. unfold SQLiteCache.not_after, SQLiteCache.update_last_accessed.
  intros Hf. apply Forall_map. eapply Forall_impl; [|exact Hf].
  intros r Hr. simpl in Hr.
  destruct (String.eqb (SQLiteCache.key r) k); simpl; lia.
Qed.

Lemma inserted_not_after (N : Z) k (b : Blob) now now'
  (rows : list (SQLiteCache.Row Blob)) :
  now <= now' -> SQLiteCache.not_after now rows ->
  SQLiteCache.not_after now'
    (let up := SQLiteCache.insert_or_replace k b now' rows in
     if SQLiteCache.select_count up >? N then
       SQLiteCache.delete_where_key_in
         (SQLiteCache.select_key_order_by_last_accessed_limit
            (SQLiteCache.select_count up - N) up) up
     else up).
Proof.
  intros Hle Hf. cbv zeta.
  assert (Hup : SQLiteCache.not_after now'
                  (SQLiteCache.insert_or_replace k b now' rows)).
  { unfold SQLiteCache.not_after, SQLiteCache.insert_or_replace.
    apply Forall_app. split.
    - apply (not_after_mono now now') in Hf; [|exact Hle].
      unfold SQLiteCache.not_after in Hf. rewrite Forall_forall in *.
      intros r Hr. apply filter_In in Hr. apply Hf. tauto.
    - repeat constructor. simpl. lia. }
  destruct (_ >? _); [|exact Hup].
  unfold SQLiteCache.not_after, SQLiteCache.delete_where_key_in in *.
  rewrite Forall_forall in *. intros r Hr. apply filter_In in Hr.
  apply Hup. tauto.
Qed.

(** A durable cache that a program can hold while the clock never runs
    backwards has unique keys and no row stamped after the latest clock
    reading. *)
Lemma sq_reachable_inv (now : Z) (c : SQLiteCache.t Blob) :
  SQLiteCache.reachable (Value:=Value) now c ->
  SQLiteCache.unique_keys (SQLiteCache.conn c)
  /\ SQLiteCache.not_after now (SQLiteCache.conn c).
Proof.
  induction 1 as [n now c Hinit|n now c c' Hr IH Hinit|now c env m Hr IH Hle].
  - injection Hinit as <-. split; constructor.
  - injection Hinit as <-. exact IH.
  - destruct IH as [Hu Hf].
    assert (Hsame : SQLiteCache.unique_keys (SQLiteCache.conn c)
                    /\ SQLiteCache.not_after (time_time env)
                         (SQLiteCache.conn c)).
    { split; [exact Hu|]. exact (not_after_mono _ _ _ Hle Hf). }
    destruct m as [k|k v|n]; cbn [SQLiteCache.perform]; unfold state_after.
    + destruct (enable_cache (lotus_settings env)) eqn:E.
      * rewrite sq_get_on by assumption.
        destruct (SQLiteCache.select_value k (SQLiteCache.conn c));
          [|exact Hsame].
        destruct (loads b); [|exact Hsame].
        cbn [snd SQLiteCache.conn]. split.
        -- unfold SQLiteCache.unique_keys.
           now rewrite update_last_accessed_keys.
        -- now apply (update_last_accessed_not_after now).
      * unfold SQLiteCache.get.
        rewrite require_cache_enabled_off by assumption. exact Hsame.
    + destruct (enable_cache (lotus_settings env)) eqn:E.
      * destruct (dumps v) eqn:Hb.
        -- rewrite (sq_insert_on _ _ _ _ _ E Hb). cbn [snd SQLiteCache.conn].
           split.
           ++ now apply inserted_unique.
           ++ now apply (inserted_not_after _ _ _ now).
        -- rewrite (sq_insert_raises _ _ _ _ _ E Hb). exact Hsame.
      * unfold SQLiteCache.insert.
        rewrite require_cache_enabled_off by assumption. exact Hsame.
    + rewrite sq_reset. split; constructor.
Qed.
End Reachable.

(** ** The claims *)

(** C1. Capacity invariant.  With a positive capacity [N]: an enabled
    [insert] into an in-memory cache that holds at most [N] entries returns
    and leaves at most [N] entries; an enabled [insert] of a picklable value
    into a durable cache returns and leaves at most [N] rows; and in every
    sequence of [insert] calls on a cache built empty with capacity [N], the
    entry count is at most [N] after every call. *)
Theorem capacity_invariant {Value Blob : Type} {pickle : Pickle Value Blob}
  (N : Z) (HN : 0 < N) :
  (forall (c : InMemoryCache.t Value) k v now,
      InMemoryCache.max_size c = N -> InMemoryCache.count c <= N ->
      result_of (InMemoryCache.insert k v) (enabled now) c = Returned None
      /\ InMemoryCache.count
           (state_after (InMemoryCache.insert k v) (enabled now) c) <= N)
  /\ (forall (c : SQLiteCache.t Blob) k v b now,
      SQLiteCache.max_size c = N ->
      SQLiteCache.unique_keys (SQLiteCache.conn c) ->
      dumps v = Returned b ->
      result_of (SQLiteCache.insert k v) (enabled now) c = Returned None
      /\ SQLiteCache.count
           (state_after (SQLiteCache.insert k v) (enabled now) c) <= N)
  /\ (forall (ops : list (Env * (string * option Value))) c0,
      InMemoryCache.__init__ N = Returned c0 ->
      Forall (fun c => InMemoryCache.count c <= N)
        (states_after
           (map (fun op => (fst op,
                            InMemoryCache.insert (fst (snd op)) (snd (snd op))))
              ops) c0))
  /\ (forall (ops : list (Env * (string * option Value))) c0,
      SQLiteCache.__init__ N [] = Returned c0 ->
      Forall (fun c => SQLiteCache.count c <= N)
        (states_after
           (map (fun op => (fst op,
                            SQLiteCache.insert (fst (snd op)) (snd (snd op))))
              ops) c0)).
Proof.
  repeat split.
  - unfold result_of. now rewrite im_insert_on.
  - subst N. apply im_insert_count; [reflexivity|lia|assumption].
  - unfold result_of. now rewrite (sq_insert_on k v b).
  - unfold state_after. rewrite (sq_insert_on k v b) by auto.
    cbn [snd]. unfold SQLiteCache.count. cbn [SQLiteCache.conn].
    subst N. apply inserted_count; [lia|assumption].
  - intros ops c0 Hc0. injection Hc0 as <-.
    eapply Forall_impl; [|apply (states_after_invariant
      (fun c => InMemoryCache.max_size c = N /\ InMemoryCache.count c <= N))].
    + intros c [_ Hc]. exact Hc.
    + split; [reflexivity|]. cbn. lia.
    + intros env c s Hin Hs. apply in_map_iff in Hin.
      destruct Hin as [[env' [k v]] [Heq _]]. injection Heq as <- <-.
      apply im_insert_invariant; [lia|exact Hs].
  - intros ops c0 Hc0. injection Hc0 as <-.
    eapply Forall_impl; [|apply (states_after_invariant
      (fun c => SQLiteCache.max_size c = N
                /\ SQLiteCache.unique_keys (SQLiteCache.conn c)
                /\ SQLiteCache.count c <= N))].
    + intros c [_ [_ Hc]]. exact Hc.
    + repeat split; [constructor|cbn; lia].
    + intros env c s Hin Hs. apply in_map_iff in Hin.
      destruct Hin as [[env' [k v]] [Heq _]]. injection Heq as <- <-.
      apply sq_insert_invariant; [lia|exact Hs].
Qed.

Lemma capacity_invariant_witness :
  0 < 2
  /\ (let c := InMemoryCache.mk 2
                 [("a"%string, Some (PyInt 1)); ("b"%string, Some (PyInt 2))] in
      InMemoryCache.count c <= 2
      /\ InMemoryCache.count
           (state_after (InMemoryCache.insert "c" (Some (PyInt 3)))
              (enabled 7) c) <= 2)
  /\ (let c := SQLiteCache.mk 2
                 [SQLiteCache.mkRow "a" (Some 1) 5;
                  SQLiteCache.mkRow "b" (Some 2) 6] in
      SQLiteCache.unique_keys (SQLiteCache.conn c)
      /\ dumps (Some (PyInt 3)) = Returned (Some 3)
      /\ SQLiteCache.count
           (state_after (SQLiteCache.insert "c" (Some (PyInt 3)))
              (enabled 7) c) <= 2).
Proof.
  assert (H2 : 0 < 2) by reflexivity.
  destruct (capacity_invariant (Value:=PyVal) (Blob:=option Z) 2 H2)
    as [Him [Hsq _]].
  assert (Hu : SQLiteCache.unique_keys
                 [SQLiteCache.mkRow "a" (Some 1) 5;
                  SQLiteCache.mkRow "b" (Some 2) 6]).
  { repeat constructor; simpl; intuition discriminate. }
  split; [exact H2|]. split.
  - split; [discriminate|].
    apply Him; [reflexivity|discriminate].
  - split; [exact Hu|]. split; [reflexivity|].
    apply (Hsq _ _ _ (Some 3)); [reflexivity|exact Hu|reflexivity].
Defined.

(** C2. The in-memory cache drops entries in insertion order: with
    capacity 2, after [insert(a,1)], [insert(b,2)], [get(a)] and
    [insert(c,3)], the entry dropped is [a], the one that was just read;
    [get(b)] and [get(c)] hit and [get(a)] returns [None].  A [get] never
    changes the receiver. *)
Theorem in_memory_get_does_not_refresh :
  exists c0,
    InMemoryCache.__init__ 2 = Returned c0
    /\ (forall k env (c : InMemoryCache.t PyVal),
          state_after (InMemoryCache.get k) env c = c)
    /\ let c :=
         final_state
           [(enabled 1, InMemoryCache.insert "a" (Some (PyInt 1)));
            (enabled 2, InMemoryCache.insert "b" (Some (PyInt 2)));
            (enabled 3, InMemoryCache.get "a");
            (enabled 4, InMemoryCache.insert "c" (Some (PyInt 3)))] c0 in
       OrderedDict.keys (InMemoryCache.cache c) = ["b"%string; "c"%string]
       /\ result_of (InMemoryCache.get "a") (enabled 5) c = Returned None
       /\ result_of (InMemoryCache.get "b") (enabled 5) c
          = Returned (Some (PyInt 2))
       /\ result_of (InMemoryCache.get "c") (enabled 5) c
          = Returned (Some (PyInt 3)).
Proof.
  eexists. split; [reflexivity|]. split.
  - intros k env c. apply im_get_state.
  - repeat split.
Qed.

(** ** Round trip *)

Section RoundTrip.
Context {Value Blob : Type} {pickle : Pickle Value Blob}.

Lemma im_round_trip (c : InMemoryCache.t Value) k v now now' :
  1 <= InMemoryCache.max_size c ->
  InMemoryCache.count c <= InMemoryCache.max_size c ->
  result_of (InMemoryCache.insert k v) (enabled now) c = Returned None
  /\ result_of (InMemoryCache.get k) (enabled now')
       (state_after (InMemoryCache.insert k v) (enabled now) c)
     = Returned v.
Proof.
  intros HN Hc. split.
  - unfold result_of. now rewrite im_insert_on.
  - unfold result_of. rewrite im_get_on by reflexivity. cbn [fst].
    now rewrite (im_insert_lookup k v (enabled now) c).
Qed.

Lemma sq_round_trip (c : SQLiteCache.t Blob) k (v : option Value) b now now' :
  1 <= SQLiteCache.max_size c ->
  SQLiteCache.unique_keys (SQLiteCache.conn c) ->
  SQLiteCache.not_after now (SQLiteCache.conn c) ->
  dumps v = Returned b ->
  result_of (SQLiteCache.insert k v) (enabled now) c = Returned None
  /\ result_of (SQLiteCache.get k) (enabled now')
       (state_after (SQLiteCache.insert k v) (enabled now) c)
     = Returned v.
Proof.
  intros HN Hu Hfresh Hb. split.
  - unfold result_of. now rewrite (sq_insert_on k v b).
  - unfold result_of, state_after.
    rewrite (sq_insert_on k v b) by auto. cbn [snd].
    rewrite sq_get_on by reflexivity. cbn [SQLiteCache.conn].
    destruct (inserted_shape (SQLiteCache.max_size c) k b
                now (SQLiteCache.conn c) HN Hu Hfresh)
      as [pre [Heq [_ [Hk _]]]].
    cbv zeta in Heq |- *. cbn [time_time enabled] in *.
    rewrite Heq, select_value_snoc by assumption.
    now rewrite (loads_dumps v b Hb).
Qed.
End RoundTrip.

(** The condition on the clock cannot be dropped: when the store holds a
    row stamped 100 and the clock reads 50, a cache of capacity 1 deletes
    the row it has just written, the oldest by [last_accessed]. *)
Remark clock_set_back_example :
  let c := SQLiteCache.mk 1 [SQLiteCache.mkRow "a" (Some 1) 100] in
  let c' := state_after (SQLiteCache.insert "b" (Some (PyInt 2)))
              (enabled 50) c in
  SQLiteCache.keys c' = ["a"%string]
  /\ result_of (SQLiteCache.get (Value:=PyVal) "b") (enabled 51) c'
     = Returned None.
Proof. split; reflexivity. Qed.

(** C3, as amended.  With caching enabled and a capacity of at least 1,
    [insert(k, v)] returns and the [get(k)] that follows returns [v]: on
    every in-memory cache a program can hold, and on every durable cache
    it can hold when [v] pickles and the clock reading of the [insert] is
    not earlier than the readings the cache has seen. *)
Theorem insert_then_get {Value Blob : Type} {pickle : Pickle Value Blob} :
  (forall (c : InMemoryCache.t Value) k v now now',
      InMemoryCache.reachable c ->
      1 <= InMemoryCache.max_size c ->
      result_of (InMemoryCache.insert k v) (enabled now) c = Returned None
      /\ result_of (InMemoryCache.get k) (enabled now')
           (state_after (InMemoryCache.insert k v) (enabled now) c)
         = Returned v)
  /\ (forall (c : SQLiteCache.t Blob) k (v : option Value) b now0 now now',
      SQLiteCache.reachable (Value:=Value) now0 c -> now0 <= now ->
      1 <= SQLiteCache.max_size c ->
      dumps v = Returned b ->
      result_of (SQLiteCache.insert k v) (enabled now) c = Returned None
      /\ result_of (SQLiteCache.get k) (enabled now')
           (state_after (SQLiteCache.insert k v) (enabled now) c)
         = Returned v).
Proof.
  split.
  - intros c k v now now' Hr HN. apply im_round_trip; [exact HN|].
    pose proof (im_reachable_bound c Hr). lia.
  - intros c k v b now0 now now' Hr Hle HN Hb.
    destruct (sq_reachable_inv now0 c Hr) as [Hu Hf].
    apply (sq_round_trip c k v b); try assumption.
    exact (not_after_mono _ _ _ Hle Hf).
Qed.

Lemma insert_then_get_witness :
  (let c := state_after
              (InMemoryCache.perform (Insert "a" (Some (PyInt 1))))
              (enabled 6) (InMemoryCache.mk 1 []) in
   InMemoryCache.reachable c
   /\ 1 <= InMemoryCache.max_size c
   /\ result_of (InMemoryCache.get "b") (enabled 8)
        (state_after (InMemoryCache.insert "b" (Some (PyInt 2)))
           (enabled 7) c)
      = Returned (Some (PyInt 2)))
  /\ (let c := state_after
                 (SQLiteCache.perform (Insert "a" (Some (PyInt 1))))
                 (enabled 7) (SQLiteCache.mk 1 []) in
      SQLiteCache.reachable (Value:=PyVal) 7 c
      /\ 7 <= 7
      /\ 1 <= SQLiteCache.max_size c
      /\ dumps (Some (PyInt 2)) = Returned (Some 2)
      /\ result_of (SQLiteCache.get "b") (enabled 8)
           (state_after (SQLiteCache.insert "b" (Some (PyInt 2)))
              (enabled 7) c)
         = Returned (Some (PyInt 2))).
Proof.
  destruct (insert_then_get (Value:=PyVal) (Blob:=option Z)) as [Him Hsq].
  split.
  - intros c.
    assert (Hr : InMemoryCache.reachable c).
    { apply InMemoryCache.reachable_call.
      apply (InMemoryCache.reachable_init 1). reflexivity. }
    assert (H1 : 1 <= InMemoryCache.max_size c) by discriminate.
    split; [exact Hr|]. split; [exact H1|].
    apply (Him c "b"%string (Some (PyInt 2)) 7 8 Hr H1).
  - intros c.
    assert (H67 : 6 <= time_time (enabled 7)) by discriminate.
    assert (Hr : SQLiteCache.reachable (Value:=PyVal) 7 c).
    { apply (SQLiteCache.reachable_call 6 (SQLiteCache.mk 1 []) (enabled 7)
               (Insert "a"%string (Some (PyInt 1)))); [|exact H67].
      apply (SQLiteCache.reachable_new 1). reflexivity. }
    assert (H77 : 7 <= 7) by discriminate.
    assert (H1 : 1 <= SQLiteCache.max_size c) by discriminate.
    assert (Hd : dumps (Some (PyInt 2)) = Returned (Some 2)) by reflexivity.
    split; [exact Hr|]. split; [exact H77|]. split; [exact H1|].
    split; [exact Hd|].
    apply (Hsq c "b"%string (Some (PyInt 2)) (Some 2) 7 7 8 Hr H77 H1 Hd).
Defined.

(** C3, as the claim has it, fails on the durable cache.  Two keys are
    inserted at clock reading 100 into a new cache of capacity 2; the
    clock is then set back and reads 99.  The [insert] of a third key
    deletes the row it has just written, the oldest by [last_accessed],
    and the [get] that follows returns [None]. *)
Lemma insert_then_get_counterexample :
  let c :=
    final_state
      [(enabled 100, SQLiteCache.insert "a" (Some (PyInt 1)));
       (enabled 100, SQLiteCache.insert "b" (Some (PyInt 2)))]
      (SQLiteCache.mk 2 []) in
  let c' := state_after (SQLiteCache.insert "c" (Some (PyInt 3)))
              (enabled 99) c in
  1 <= SQLiteCache.max_size c
  /\ result_of (SQLiteCache.insert "c" (Some (PyInt 3))) (enabled 99) c
     = Returned None
  /\ SQLiteCache.keys c' = ["a"; "b"]%string
  /\ result_of (SQLiteCache.get (Value:=PyVal) "c") (enabled 99) c'
     = Returned None
  /\ result_of (SQLiteCache.get (Value:=PyVal) "c") (enabled 99) c'
     <> Returned (Some (PyInt 3)).
Proof.
  split; [discriminate|]. split; [reflexivity|]. split; [reflexivity|].
  split; [reflexivity|discriminate].
Qed.

(** C4. Disabled gate.  With [enable_cache] off, [insert] and [get] return
    [None] and leave the receiver as it was, for both backends and whatever
    the cache stores; so a [get] after an [insert] returns [None] too. *)
Theorem disabled_gate {Value Blob : Type} {pickle : Pickle Value Blob} :
  (forall (c : InMemoryCache.t Value) k k' v now now',
      InMemoryCache.insert k v (disabled now) c = (Returned None, c)
      /\ InMemoryCache.get k' (disabled now') c = (Returned None, c)
      /\ result_of (InMemoryCache.get k) (disabled now')
           (state_after (InMemoryCache.insert k v) (disabled now) c)
         = Returned None)
  /\ (forall (c : SQLiteCache.t Blob) k k' v now now',
      SQLiteCache.insert k v (disabled now) c = (Returned None, c)
      /\ SQLiteCache.get k' (disabled now') c = (Returned None, c)
      /\ result_of (SQLiteCache.get k) (disabled now')
           (state_after (SQLiteCache.insert k v) (disabled now) c)
         = Returned None).
Proof.
  split; intros c k k' v now now'.
  - unfold result_of, state_after, InMemoryCache.insert, InMemoryCache.get.
    now rewrite !require_cache_enabled_off.
  - unfold result_of, state_after, SQLiteCache.insert, SQLiteCache.get.
    now rewrite !require_cache_enabled_off.
Qed.

(** C5. Durable [insert].  With caching enabled, a capacity [N] that is not
    negative and a value that pickles, [insert] first upserts: the table
    [up] after [INSERT OR REPLACE] has unique keys, holds the new row, and
    holds under every other key what it held before.  If [up] has at most
    [N] rows it is the table [insert] leaves.  If it has more, [up] splits
    into the rows [insert] leaves and [count - N] victims, none of which
    was accessed later than a row that is left. *)
Theorem durable_insert_evicts_oldest {Value Blob : Type}
  {pickle : Pickle Value Blob} (c : SQLiteCache.t Blob) k v b now :
  0 <= SQLiteCache.max_size c ->
  SQLiteCache.unique_keys (SQLiteCache.conn c) ->
  dumps v = Returned b ->
  let N := SQLiteCache.max_size c in
  let up := SQLiteCache.insert_or_replace k b now (SQLiteCache.conn c) in
  let c' := state_after (SQLiteCache.insert k v) (enabled now) c in
  result_of (SQLiteCache.insert k v) (enabled now) c = Returned None
  /\ (SQLiteCache.unique_keys up
      /\ In (SQLiteCache.mkRow k b now) up
      /\ forall r, SQLiteCache.key r <> k ->
           (In r up <-> In r (SQLiteCache.conn c)))
  /\ (SQLiteCache.select_count up <= N -> SQLiteCache.conn c' = up)
  /\ (N < SQLiteCache.select_count up ->
      exists victims,
        Permutation up (victims ++ SQLiteCache.conn c')
        /\ Z.of_nat (List.length victims) = SQLiteCache.select_count up - N
        /\ SQLiteCache.count c' = N
        /\ forall x r, In x victims -> In r (SQLiteCache.conn c') ->
             SQLiteCache.older x r).
Proof.
  intros HN Hu Hb N up c'.
  assert (Huu : SQLiteCache.unique_keys up)
    by now apply insert_or_replace_unique.
  assert (Hc' : SQLiteCache.conn c' =
                if SQLiteCache.select_count up >? N then
                  SQLiteCache.delete_where_key_in
                    (SQLiteCache.select_key_order_by_last_accessed_limit
                       (SQLiteCache.select_count up - N) up) up
                else up).
  { unfold c', state_after. now rewrite (sq_insert_on k v b). }
  split; [unfold result_of; now rewrite (sq_insert_on k v b)|].
  split; [|split].
  - split; [exact Huu|]. unfold up, SQLiteCache.insert_or_replace. split.
    + apply in_or_app. right. now left.
    + intros r Hr. rewrite in_app_iff, filter_In. simpl.
      apply String.eqb_neq in Hr. rewrite Hr. simpl.
      split; [intros [[H _]|[<-|[]]]|intros H; left; now split].
      * exact H.
      * simpl in Hr. now rewrite String.eqb_refl in Hr.
  - intros Hle. rewrite Hc'.
    destruct (Z.gtb_spec (SQLiteCache.select_count up) N); [lia|reflexivity].
  - intros Hgt. rewrite Hc'. unfold SQLiteCache.count. rewrite Hc'.
    destruct (Z.gtb_spec (SQLiteCache.select_count up) N) as [_|Hle]; [|lia].
    destruct (enforce_split N up HN Huu Hgt) as [victims [Hp [Hlen Hold]]].
    exists victims. repeat split; try assumption.
    apply Permutation_length in Hp. rewrite length_app in Hp.
    unfold SQLiteCache.select_count in *. lia.
Qed.

Lemma durable_insert_evicts_oldest_witness :
  let c := SQLiteCache.mk 2
             [SQLiteCache.mkRow "a" (Some 1) 9;
              SQLiteCache.mkRow "b" (Some 2) 4;
              SQLiteCache.mkRow "c" (Some 3) 6] in
  let c' := state_after (SQLiteCache.insert "d" (Some (PyInt 4))) (enabled 9) c in
  0 <= SQLiteCache.max_size c
  /\ SQLiteCache.unique_keys (SQLiteCache.conn c)
  /\ dumps (Some (PyInt 4)) = Returned (Some 4)
  /\ SQLiteCache.keys c' = ["a"%string; "d"%string]
  /\ exists victims,
       Z.of_nat (List.length victims) = 2
       /\ forall x r, In x victims -> In r (SQLiteCache.conn c') ->
            SQLiteCache.older x r.
Proof.
  intros c c'.
  assert (Hu : SQLiteCache.unique_keys (SQLiteCache.conn c)).
  { repeat constructor; simpl; intuition discriminate. }
  assert (H0 : 0 <= SQLiteCache.max_size c) by discriminate.
  assert (Hb : dumps (Some (PyInt 4)) = Returned (Some 4)) by reflexivity.
  destruct (durable_insert_evicts_oldest (Value:=PyVal) c "d"
              (Some (PyInt 4)) (Some 4) 9 H0 Hu Hb)
    as [_ [_ [_ Hover]]].
  assert (Hgt : SQLiteCache.max_size c <
                SQLiteCache.select_count
                  (SQLiteCache.insert_or_replace "d" (Some 4) 9
                     (SQLiteCache.conn c))) by reflexivity.
  destruct (Hover Hgt) as [victims [_ [Hlen [_ Hold]]]].
  split; [exact H0|]. split; [exact Hu|]. split; [reflexivity|].
  split; [reflexivity|].
  exists victims. split; [exact Hlen|exact Hold].
Defined.

(** ** Inserts of new keys under a clock that does not run backwards *)

Section AscendingStore.
Context {Blob : Type}.
Implicit Types (rows : list (SQLiteCache.Row Blob)) (k : string) (b : Blob).

Lemma delete_nothing rows : SQLiteCache.delete_where_key_in [] rows = rows.
Proof.
  unfold SQLiteCache.delete_where_key_in.
  induction rows as [|x rows IH]; simpl; [reflexivity|]. f_equal. exact IH.
Qed.

(** On a table in ascending order with unique keys, deleting the keys of
    the first [n] rows leaves the rows after them. *)
Lemma delete_firstn (n : nat) rows :
  SQLiteCache.unique_keys rows ->
  SQLiteCache.delete_where_key_in
    (firstn n (map (@SQLiteCache.key Blob) rows)) rows
  = skipn n rows.
Proof.
  revert n. induction rows as [|x rows IH]; intros n Hu.
  - now destruct n.
  - destruct n as [|n]; [apply delete_nothing|].
    inversion Hu as [|? ? Hx Hu']; subst.
    unfold SQLiteCache.delete_where_key_in. simpl.
    rewrite String.eqb_refl. simpl.
    rewrite <- (IH n Hu'). apply filter_ext_in.
    intros r Hr.
    destruct (String.eqb_spec (SQLiteCache.key r) (SQLiteCache.key x))
      as [Heq|Hne]; [|reflexivity].
    exfalso. apply Hx. rewrite <- Heq. now apply in_map.
Qed.

Lemma sorted_snoc k b now rows :
  StronglySorted (@SQLiteCache.older Blob) rows ->
  SQLiteCache.not_after now rows ->
  StronglySorted (@SQLiteCache.older Blob)
    (rows ++ [SQLiteCache.mkRow k b now]).
Proof.
  induction 1 as [|x rest Hs IH Hx]; simpl; intros Hf.
  - repeat constructor.
  - inversion Hf as [|? ? Hxn Hf']; subst.
    constructor; [now apply IH|].
    apply Forall_app. split; [exact Hx|].
    repeat constructor. exact Hxn.
Qed.

(** The table an [insert] of a new key leaves when the rows are in
    ascending order of [last_accessed] and none is stamped after [now]:
    the new row is added at the end and the rows in excess of [N] are
    dropped from the front. *)
Lemma inserted_ascending (N : Z) k b now rows :
  StronglySorted (@SQLiteCache.older Blob) rows ->
  SQLiteCache.unique_keys rows ->
  SQLiteCache.not_after now rows ->
  ~ In k (map (@SQLiteCache.key Blob) rows) ->
  (let up := SQLiteCache.insert_or_replace k b now rows in
   if SQLiteCache.select_count up >? N then
     SQLiteCache.delete_where_key_in
       (SQLiteCache.select_key_order_by_last_accessed_limit
          (SQLiteCache.select_count up - N) up) up
   else up)
  = skipn (Z.to_nat (SQLiteCache.select_count rows + 1 - N))
      (rows ++ [SQLiteCache.mkRow k b now]).
Proof.
  intros Hs Hu Hf Hk. cbv zeta. unfold SQLiteCache.insert_or_replace.
  rewrite filter_drop_key_absent by assumption.
  set (up := rows ++ [SQLiteCache.mkRow k b now]).
  assert (Hcount : SQLiteCache.select_count up
                   = SQLiteCache.select_count rows + 1).
  { unfold up, SQLiteCache.select_count. rewrite length_app. simpl. lia. }
  destruct (Z.gtb_spec (SQLiteCache.select_count up) N) as [Hgt|Hle].
  - unfold SQLiteCache.select_key_order_by_last_accessed_limit.
    rewrite limit_nonneg by lia.
    rewrite order_by_sorted_id by (now apply sorted_snoc).
    rewrite Hcount. apply delete_firstn.
    now apply unique_keys_snoc.
  - replace (Z.to_nat (SQLiteCache.select_count rows + 1 - N)) with 0%nat
      by lia.
    reflexivity.
Qed.
End AscendingStore.

(** The same at the level of the call. *)
Lemma sq_insert_ascending {Value Blob : Type} {pickle : Pickle Value Blob}
  (c : SQLiteCache.t Blob) k (v : option Value) (b : Blob) now :
  dumps v = Returned b ->
  StronglySorted (@SQLiteCache.older Blob) (SQLiteCache.conn c) ->
  SQLiteCache.unique_keys (SQLiteCache.conn c) ->
  SQLiteCache.not_after now (SQLiteCache.conn c) ->
  ~ In k (map (@SQLiteCache.key Blob) (SQLiteCache.conn c)) ->
  state_after (SQLiteCache.insert k v) (enabled now) c
  = SQLiteCache.mk (SQLiteCache.max_size c)
      (skipn (Z.to_nat (SQLiteCache.count c + 1 - SQLiteCache.max_size c))
         (SQLiteCache.conn c ++ [SQLiteCache.mkRow k b now])).
Proof.
  intros Hb Hs Hu Hf Hk. unfold state_after.
  rewrite (sq_insert_on k v b) by auto. cbn [snd]. f_equal.
  now apply inserted_ascending.
Qed.

(** Bulk eviction on a new store.  A durable cache of capacity 2 is
    opened on a new store; five distinct keys are inserted, with values that pickle, at
    clock readings that never decrease (equal readings included) and with
    no read in between.  The cache then holds the fourth and the fifth key
    and no other: [get] returns [None] for the first three keys and the
    stored values for the last two. *)
Theorem durable_bulk_eviction {Value Blob : Type} {pickle : Pickle Value Blob}
  (k1 k2 k3 k4 k5 : string) (v1 v2 v3 v4 v5 : option Value)
  (b1 b2 b3 b4 b5 : Blob) (t1 t2 t3 t4 t5 : Z) (c0 : SQLiteCache.t Blob) :
  NoDup [k1; k2; k3; k4; k5] ->
  t1 <= t2 /\ t2 <= t3 /\ t3 <= t4 /\ t4 <= t5 ->
  dumps v1 = Returned b1 -> dumps v2 = Returned b2 ->
  dumps v3 = Returned b3 -> dumps v4 = Returned b4 ->
  dumps v5 = Returned b5 ->
  SQLiteCache.__init__ 2 [] = Returned c0 ->
  let c :=
    final_state
      [(enabled t1, SQLiteCache.insert k1 v1);
       (enabled t2, SQLiteCache.insert k2 v2);
       (enabled t3, SQLiteCache.insert k3 v3);
       (enabled t4, SQLiteCache.insert k4 v4);
       (enabled t5, SQLiteCache.insert k5 v5)] c0 in
  SQLiteCache.keys c = [k4; k5]
  /\ (forall k now, In k [k1; k2; k3] ->
        result_of (SQLiteCache.get k) (enabled now) c = Returned None)
  /\ (forall now, result_of (SQLiteCache.get k4) (enabled now) c = Returned v4)
  /\ (forall now, result_of (SQLiteCache.get k5) (enabled now) c = Returned v5).
Proof.
  intros Hnd [H12 [H23 [H34 H45]]] Hb1 Hb2 Hb3 Hb4 Hb5 Hc0 c.
  injection Hc0 as <-.
  assert (Hne : k1 <> k2 /\ k1 <> k3 /\ k1 <> k4 /\ k1 <> k5 /\ k2 <> k3
                /\ k2 <> k4 /\ k2 <> k5 /\ k3 <> k4 /\ k3 <> k5 /\ k4 <> k5).
  { repeat match goal with
           | H : NoDup (_ :: _) |- _ => inversion H; clear H; subst
           end.
    simpl in *. intuition. }
  destruct Hne as [N12 [N13 [N14 [N15 [N23 [N24 [N25 [N34 [N35 N45]]]]]]]]].
  assert (Hc : c = SQLiteCache.mk 2
                     [SQLiteCache.mkRow k4 b4 t4; SQLiteCache.mkRow k5 b5 t5]).
  { unfold c, final_state. cbn [fold_left].
    rewrite (sq_insert_ascending _ k1 v1 b1 t1 Hb1);
      [|constructor|constructor|constructor|intros []].
    cbn.
    rewrite (sq_insert_ascending _ k2 v2 b2 t2 Hb2);
      [|repeat constructor|repeat constructor; simpl; intuition
       |repeat constructor; simpl; lia|simpl; intuition].
    cbn.
    rewrite (sq_insert_ascending _ k3 v3 b3 t3 Hb3);
      [|repeat constructor; unfold SQLiteCache.older; simpl; lia
       |repeat constructor; simpl; intuition
       |repeat constructor; simpl; lia|simpl; intuition].
    cbn.
    rewrite (sq_insert_ascending _ k4 v4 b4 t4 Hb4);
      [|repeat constructor; unfold SQLiteCache.older; simpl; lia
       |repeat constructor; simpl; intuition
       |repeat constructor; simpl; lia|simpl; intuition].
    cbn.
    rewrite (sq_insert_ascending _ k5 v5 b5 t5 Hb5);
      [|repeat constructor; unfold SQLiteCache.older; simpl; lia
       |repeat constructor; simpl; intuition
       |repeat constructor; simpl; lia|simpl; intuition].
    reflexivity. }
  rewrite Hc. unfold result_of. repeat split.
  - intros k now Hin. rewrite sq_get_on by reflexivity.
    cbn [SQLiteCache.conn].
    rewrite select_value_absent; [reflexivity|].
    simpl in *. intuition congruence.
  - intros now. rewrite sq_get_on by reflexivity. simpl.
    rewrite String.eqb_refl. now rewrite (loads_dumps v4 b4 Hb4).
  - intros now. rewrite sq_get_on by reflexivity. simpl.
    apply String.eqb_neq in N45. rewrite N45, String.eqb_refl.
    now rewrite (loads_dumps v5 b5 Hb5).
Qed.

Lemma durable_bulk_eviction_witness :
  let ins k z := SQLiteCache.insert (Value:=PyVal) k (Some (PyInt z)) in
  let c :=
    final_state
      [(enabled 100, ins "k1"%string 1); (enabled 100, ins "k2"%string 2);
       (enabled 100, ins "k3"%string 3); (enabled 100, ins "k4"%string 4);
       (enabled 101, ins "k5"%string 5)] (SQLiteCache.mk 2 []) in
  NoDup ["k1"; "k2"; "k3"; "k4"; "k5"]%string
  /\ (100 <= 100 /\ 100 <= 100 /\ 100 <= 100 /\ 100 <= 101)
  /\ SQLiteCache.keys c = ["k4"; "k5"]%string
  /\ result_of (SQLiteCache.get (Value:=PyVal) "k1") (enabled 102) c
     = Returned None
  /\ result_of (SQLiteCache.get (Value:=PyVal) "k5") (enabled 102) c
     = Returned (Some (PyInt 5)).
Proof.
  intros ins c.
  assert (Hnd : NoDup ["k1"; "k2"; "k3"; "k4"; "k5"]%string).
  { repeat constructor; simpl; intuition discriminate. }
  assert (Ht : 100 <= 100 /\ 100 <= 100 /\ 100 <= 100 /\ 100 <= 101).
  { repeat split; discriminate. }
  assert (Hd : forall z, dumps (Some (PyInt z)) = Returned (Some z))
    by reflexivity.
  destruct (durable_bulk_eviction (Value:=PyVal) (Blob:=option Z)
              "k1" "k2" "k3" "k4" "k5"
              (Some (PyInt 1)) (Some (PyInt 2)) (Some (PyInt 3))
              (Some (PyInt 4)) (Some (PyInt 5))
              (Some 1) (Some 2) (Some 3) (Some 4) (Some 5)
              100 100 100 100 101 (SQLiteCache.mk 2 [])
              Hnd Ht (Hd 1) (Hd 2) (Hd 3) (Hd 4) (Hd 5) eq_refl)
    as [Hkeys [Hold [_ Hk5]]].
  split; [exact Hnd|]. split; [exact Ht|]. split; [exact Hkeys|].
  split; [apply Hold; now left|apply Hk5].
Defined.

(** ** Overwriting a key *)



Section Overwrite.
Context {Value Blob : Type} {pickle : Pickle Value Blob}.


End Overwrite.




(** ** reset and the capacity *)

Lemma im_get_empty {Value : Type} k env (N : Z) :
  InMemoryCache.get (Value:=Value) k env (InMemoryCache.mk N [])
  = (Returned None, InMemoryCache.mk N []).
Proof.
  destruct (enable_cache (lotus_settings env)) eqn:E.
  - now rewrite im_get_on.
  - unfold InMemoryCache.get. now rewrite require_cache_enabled_off.
Qed.

Lemma sq_get_empty {Value Blob : Type} {pickle : Pickle Value Blob} k env
  (N : Z) :
  SQLiteCache.get (Value:=Value) k env (SQLiteCache.mk N [])
  = (Returned None, SQLiteCache.mk N []).
Proof.
  destruct (enable_cache (lotus_settings env)) eqn:E.
  - now rewrite sq_get_on.
  - unfold SQLiteCache.get. now rewrite require_cache_enabled_off.
Qed.

(** C8. Reset.  For both backends and whatever the settings, [reset]
    returns and leaves no entry: every later [get], of any key, returns
    [None].  Given a new capacity, [reset] leaves the cache as the
    constructor builds it for that capacity (the durable one on an empty
    store), so that later inserts run against the new bound; given none,
    the capacity stays as it was. *)
Theorem reset_clears {Value Blob : Type} {pickle : Pickle Value Blob} :
  (forall (c : InMemoryCache.t Value) n env,
      let c' := state_after (InMemoryCache.reset n) env c in
      result_of (InMemoryCache.reset n) env c = Returned None
      /\ InMemoryCache.cache c' = []
      /\ (forall k env', InMemoryCache.get k env' c' = (Returned None, c'))
      /\ InMemoryCache.max_size c'
         = match n with Some m => m | None => InMemoryCache.max_size c end)
  /\ (forall (c : InMemoryCache.t Value) m env,
      Returned (state_after (InMemoryCache.reset (Some m)) env c)
      = InMemoryCache.__init__ m)
  /\ (forall (c : SQLiteCache.t Blob) n env,
      let c' := state_after (SQLiteCache.reset (Value:=Value) n) env c in
      result_of (SQLiteCache.reset (Value:=Value) n) env c = Returned None
      /\ SQLiteCache.conn c' = []
      /\ (forall k env',
            SQLiteCache.get (Value:=Value) k env' c' = (Returned None, c'))
      /\ SQLiteCache.max_size c'
         = match n with Some m => m | None => SQLiteCache.max_size c end)
  /\ (forall (c : SQLiteCache.t Blob) m env,
      Returned (state_after (SQLiteCache.reset (Value:=Value) (Some m)) env c)
      = SQLiteCache.__init__ m []).
Proof.
  repeat split.
  - unfold result_of. now rewrite im_reset.
  - unfold state_after. now rewrite im_reset.
  - intros k env'. unfold state_after. rewrite im_reset. cbn [snd].
    apply im_get_empty.
  - unfold state_after. now rewrite im_reset.
  - unfold result_of. now rewrite sq_reset.
  - unfold state_after. now rewrite sq_reset.
  - intros k env'. unfold state_after. rewrite sq_reset. cbn [snd].
    apply sq_get_empty.
  - unfold state_after. now rewrite sq_reset.
Qed.

(** After [reset(5)] five inserts of new keys drop nothing and the sixth
    drops one entry, on both backends. *)
Example reset_5_then_six_inserts :
  let ins1 k z := (enabled z, InMemoryCache.insert k (Some (PyInt z))) in
  let ins2 k z := (enabled z, SQLiteCache.insert k (Some (PyInt z))) in
  let c1 := state_after (InMemoryCache.reset (Some 5)) (enabled 0)
              (InMemoryCache.mk 2 [("x"%string, Some (PyInt 0))]) in
  let c2 := state_after (SQLiteCache.reset (Value:=PyVal) (Some 5))
              (enabled 0)
              (SQLiteCache.mk 2 [SQLiteCache.mkRow "x" (Some 0) 0]) in
  let five (A : Type) (ins : string -> Z -> A) :=
    [ins "a"%string 1; ins "b"%string 2; ins "c"%string 3;
     ins "d"%string 4; ins "e"%string 5] in
  OrderedDict.keys (InMemoryCache.cache (final_state (five _ ins1) c1))
  = ["a"; "b"; "c"; "d"; "e"]%string
  /\ OrderedDict.keys
       (InMemoryCache.cache
          (final_state (five _ ins1 ++ [ins1 "f"%string 6]) c1))
     = ["b"; "c"; "d"; "e"; "f"]%string
  /\ SQLiteCache.keys (final_state (five _ ins2) c2)
     = ["a"; "b"; "c"; "d"; "e"]%string
  /\ SQLiteCache.keys (final_state (five _ ins2 ++ [ins2 "f"%string 6]) c2)
     = ["b"; "c"; "d"; "e"; "f"]%string.
Proof. repeat split. Qed.

(** C9, as amended.  Neither the constructors nor [reset] check the
    capacity: a capacity [n <= 0] is taken without an exception and
    becomes [max_size], the bound of the cache. *)
Theorem nonpositive_capacity_accepted {Value Blob : Type}
  {pickle : Pickle Value Blob} (n : Z) :
  n <= 0 ->
  InMemoryCache.__init__ (Value:=Value) n = Returned (InMemoryCache.mk n [])
  /\ (forall db : list (SQLiteCache.Row Blob),
        SQLiteCache.__init__ n db = Returned (SQLiteCache.mk n db))
  /\ (forall (c : InMemoryCache.t Value) env,
        InMemoryCache.reset (Some n) env c
        = (Returned None, InMemoryCache.mk n [])
        /\ InMemoryCache.max_size
             (state_after (InMemoryCache.reset (Some n)) env c) = n)
  /\ (forall (c : SQLiteCache.t Blob) env,
        SQLiteCache.reset (Value:=Value) (Some n) env c
        = (Returned None, SQLiteCache.mk n [])
        /\ SQLiteCache.max_size
             (state_after (SQLiteCache.reset (Value:=Value) (Some n)) env c)
           = n).
Proof.
  intros Hn. split; [reflexivity|]. split; [reflexivity|]. split.
  - intros c env. unfold state_after. rewrite im_reset. now split.
  - intros c env. unfold state_after. rewrite sq_reset. now split.
Qed.

Lemma nonpositive_capacity_accepted_witness :
  -3 <= 0
  /\ InMemoryCache.__init__ (Value:=PyVal) (-3)
     = Returned (InMemoryCache.mk (-3) [])
  /\ SQLiteCache.reset (Value:=PyVal) (Some (-3)) (enabled 5)
       (SQLiteCache.mk 2 [SQLiteCache.mkRow "a" (Some 1) 1])
     = (Returned None, SQLiteCache.mk (-3) []).
Proof.
  assert (H0 : -3 <= 0) by discriminate.
  destruct (nonpositive_capacity_accepted (Value:=PyVal) (Blob:=option Z)
              (-3) H0) as [Hinit [_ [_ Hreset]]].
  split; [exact H0|]. split; [exact Hinit|].
  exact (proj1 (Hreset (SQLiteCache.mk 2 [SQLiteCache.mkRow "a" (Some 1) 1])
                  (enabled 5))).
Defined.

(** C9, as the claim has it, fails: capacity [0] at construction and
    capacity [-3] at [reset] are taken without an exception and become the
    bound. *)
Lemma nonpositive_capacity_counterexample :
  InMemoryCache.__init__ (Value:=PyVal) 0 = Returned (InMemoryCache.mk 0 [])
  /\ SQLiteCache.__init__ (Blob:=option Z) 0 [] = Returned (SQLiteCache.mk 0 [])
  /\ (let c := InMemoryCache.mk (Value:=PyVal) 2 [] in
      result_of (InMemoryCache.reset (Some (-3))) (enabled 0) c = Returned None
      /\ InMemoryCache.max_size
           (state_after (InMemoryCache.reset (Some (-3))) (enabled 0) c) = -3)
  /\ (let c := SQLiteCache.mk (Blob:=option Z) 2 [] in
      result_of (SQLiteCache.reset (Value:=PyVal) (Some (-3))) (enabled 0) c
      = Returned None
      /\ SQLiteCache.max_size
           (state_after (SQLiteCache.reset (Value:=PyVal) (Some (-3)))
              (enabled 0) c) = -3).
Proof. repeat split. Qed.

(** C10. [reset] is not gated.  With [enable_cache] off, [reset] still
    returns, still leaves no entry and still takes a new capacity when
    given one, for both backends, while [insert] and [get] return [None]
    and leave the receiver as it was. *)
Theorem reset_ignores_gate {Value Blob : Type} {pickle : Pickle Value Blob} :
  (forall (c : InMemoryCache.t Value) n k v now,
      InMemoryCache.reset n (disabled now) c
      = (Returned None,
         InMemoryCache.mk
           (match n with Some m => m | None => InMemoryCache.max_size c end)
           [])
      /\ InMemoryCache.insert k v (disabled now) c = (Returned None, c)
      /\ InMemoryCache.get k (disabled now) c = (Returned None, c))
  /\ (forall (c : SQLiteCache.t Blob) n k (v : option Value) now,
      SQLiteCache.reset (Value:=Value) n (disabled now) c
      = (Returned None,
         SQLiteCache.mk
           (match n with Some m => m | None => SQLiteCache.max_size c end)
           [])
      /\ SQLiteCache.insert k v (disabled now) c = (Returned None, c)
      /\ SQLiteCache.get (Value:=Value) k (disabled now) c
         = (Returned None, c)).
Proof.
  split; intros c n k v now.
  - split; [apply im_reset|].
    unfold InMemoryCache.insert, InMemoryCache.get.
    now rewrite !require_cache_enabled_off.
  - split; [apply sq_reset|].
    unfold SQLiteCache.insert, SQLiteCache.get.
    now rewrite !require_cache_enabled_off.
Qed.

(** * Further properties of the two backends *)

(** ** InMemoryCache: what an insert keeps and what it drops *)

Section InMemoryMore.
Context {Value : Type}.
Implicit Types (c : InMemoryCache.t Value) (k : string) (v : option Value)
  (d : OrderedDict.t (option Value)).

Lemma contains_false_get k d :
  OrderedDict.contains k d = false <-> OrderedDict.get k d = None.
Proof.
  induction d as [|[k' v'] d IH]; simpl; [tauto|].
  destruct (String.eqb k' k); [|exact IH]. split; discriminate.
Qed.

Lemma contains_In_keys k d :
  OrderedDict.contains k d = true <-> In k (OrderedDict.keys d).
Proof.
  unfold OrderedDict.keys.
  induction d as [|[k' v'] d IH]; simpl; [split; [discriminate|tauto]|].
  destruct (String.eqb_spec k' k) as [Heq|Hne]; [tauto|].
  rewrite IH. tauto.
Qed.

Lemma setitem_absent k v d :
  OrderedDict.contains k d = false ->
  OrderedDict.setitem k v d = d ++ [(k, v)].
Proof.
  induction d as [|[k' v'] d IH]; simpl; [reflexivity|].
  destruct (String.eqb k' k); [discriminate|].
  intros Hc. now rewrite IH.
Qed.

Lemma get_app_absent k d d' :
  OrderedDict.contains k d = false ->
  OrderedDict.get k (d ++ d') = OrderedDict.get k d'.
Proof.
  induction d as [|[k' v'] d IH]; simpl; [reflexivity|].
  destruct (String.eqb k' k); [discriminate|]. exact IH.
Qed.

Lemma contains_tl_absent k d :
  OrderedDict.contains k d = false -> OrderedDict.contains k (tl d) = false.
Proof.
  destruct d as [|[k' v'] d]; simpl; [reflexivity|].
  destruct (String.eqb k' k); [discriminate|tauto].
Qed.

Lemma setitem_keys k v d :
  OrderedDict.keys (OrderedDict.setitem k v d) =
  if OrderedDict.contains k d then OrderedDict.keys d
  else OrderedDict.keys d ++ [k].
Proof.
  unfold OrderedDict.keys.
  induction d as [|[k' v'] d IH]; simpl; [reflexivity|].
  destruct (String.eqb k' k); simpl; [reflexivity|].
  rewrite IH. now destruct (OrderedDict.contains k d).
Qed.

Lemma setitem_unique k v d :
  NoDup (OrderedDict.keys d) ->
  NoDup (OrderedDict.keys (OrderedDict.setitem k v d)).
Proof.
  intros Hnd. rewrite setitem_keys.
  destruct (OrderedDict.contains k d) eqn:Hc; [exact Hnd|].
  apply NoDup_app; [exact Hnd|repeat constructor; intros []|].
  intros a Ha [<-|[]]. apply contains_In_keys in Ha. congruence.
Qed.

Lemma tl_unique d :
  NoDup (OrderedDict.keys d) -> NoDup (OrderedDict.keys (tl d)).
Proof.
  destruct d as [|kv d]; simpl; [tauto|]. now inversion 1.
Qed.

(** The cache a call leaves, for the three methods. *)
Lemma im_insert_state k v env c :
  InMemoryCache.cache (state_after (InMemoryCache.insert k v) env c) =
  if enable_cache (lotus_settings env) then
    let d := OrderedDict.setitem k v (InMemoryCache.cache c) in
    if OrderedDict.len d >? InMemoryCache.max_size c then tl d else d
  else InMemoryCache.cache c.
Proof.
  unfold state_after. destruct (enable_cache (lotus_settings env)) eqn:E.
  - now rewrite im_insert_on.
  - unfold InMemoryCache.insert. now rewrite require_cache_enabled_off.
Qed.

Lemma im_reachable_unique c :
  InMemoryCache.reachable c ->
  NoDup (OrderedDict.keys (InMemoryCache.cache c)).
Proof.
  induction 1 as [n c Hinit|c env m Hr IH].
  - injection Hinit as <-. constructor.
  - destruct m as [k|k v|n]; cbn [InMemoryCache.perform].
    + now rewrite im_get_state.
    + rewrite im_insert_state.
      destruct (enable_cache (lotus_settings env)); [|exact IH].
      cbv zeta. destruct (_ >? _).
      * now apply tl_unique, setitem_unique.
      * now apply setitem_unique.
    + unfold state_after. rewrite im_reset. constructor.
Qed.
End InMemoryMore.

(** The cache after an enabled insert of a key that is not held. *)
Lemma in_memory_insert_new_key_aux {Value : Type} (c : InMemoryCache.t Value)
  k v now :
  1 <= InMemoryCache.max_size c ->
  OrderedDict.contains k (InMemoryCache.cache c) = false ->
  InMemoryCache.cache (state_after (InMemoryCache.insert k v) (enabled now) c)
  = (if InMemoryCache.count c <? InMemoryCache.max_size c
     then InMemoryCache.cache c
     else tl (InMemoryCache.cache c)) ++ [(k, v)].
Proof.
  intros HN Hk. rewrite im_insert_state. cbn [enable_cache lotus_settings enabled].
  cbv zeta. rewrite setitem_absent by assumption.
  unfold InMemoryCache.count, OrderedDict.len. rewrite length_app. simpl.
  destruct (Z.ltb_spec (Z.of_nat (List.length (InMemoryCache.cache c)))
              (InMemoryCache.max_size c)) as [Hlt|Hge];
    destruct (Z.gtb_spec
                (Z.of_nat (List.length (InMemoryCache.cache c) + 1))
                (InMemoryCache.max_size c)) as [Hgt|Hle];
    try lia; try reflexivity.
  destruct (InMemoryCache.cache c); [simpl in *; lia|reflexivity].
Qed.

(** X1. An enabled [insert] of a key the in-memory cache does not hold, at
    capacity 1 or more: the entry goes to the end and is read back; when
    the cache is already at (or over) its bound, the entry at the front,
    the one inserted first, is dropped, and no other, and a [get] of the
    key it was stored under returns [None]. *)
Theorem in_memory_insert_new_key {Value : Type} (c : InMemoryCache.t Value)
  k v now now' :
  1 <= InMemoryCache.max_size c ->
  OrderedDict.contains k (InMemoryCache.cache c) = false ->
  NoDup (OrderedDict.keys (InMemoryCache.cache c)) ->
  let c' := state_after (InMemoryCache.insert k v) (enabled now) c in
  InMemoryCache.cache c'
  = (if InMemoryCache.count c <? InMemoryCache.max_size c
     then InMemoryCache.cache c
     else tl (InMemoryCache.cache c)) ++ [(k, v)]
  /\ result_of (InMemoryCache.get k) (enabled now') c' = Returned v
  /\ (InMemoryCache.max_size c <= InMemoryCache.count c ->
      forall k0 v0 d, InMemoryCache.cache c = (k0, v0) :: d ->
        result_of (InMemoryCache.get k0) (enabled now') c' = Returned None).
Proof.
  intros HN Hk Hnd c'.
  assert (Hc' : InMemoryCache.cache c'
                = (if InMemoryCache.count c <? InMemoryCache.max_size c
                   then InMemoryCache.cache c
                   else tl (InMemoryCache.cache c)) ++ [(k, v)])
    by now apply in_memory_insert_new_key_aux.
  split; [exact Hc'|]. unfold result_of.
  rewrite !im_get_on by reflexivity. cbn [fst]. split.
  - rewrite Hc', get_app_absent.
    + simpl. now rewrite String.eqb_refl.
    + destruct (_ <? _); [exact Hk|now apply contains_tl_absent].
  - intros Hfull k0 v0 d Hc. rewrite im_get_on by reflexivity. cbn [fst].
    rewrite Hc'.
    destruct (Z.ltb_spec (InMemoryCache.count c) (InMemoryCache.max_size c));
      [lia|].
    rewrite Hc in *. simpl in Hk, Hnd |- *.
    destruct (String.eqb_spec k0 k) as [Heq|Hne]; [discriminate|].
    inversion Hnd as [|? ? Hx _]; subst.
    assert (Hd : OrderedDict.contains k0 d = false).
    { destruct (OrderedDict.contains k0 d) eqn:E; [|reflexivity].
      apply contains_In_keys in E. contradiction. }
    rewrite get_app_absent by assumption. simpl.
    apply String.eqb_neq in Hne. rewrite String.eqb_sym in Hne.
    now rewrite Hne.
Qed.

Lemma in_memory_insert_new_key_witness :
  let c := InMemoryCache.mk 2
             [("a"%string, Some (PyInt 1)); ("b"%string, Some (PyInt 2))] in
  let c' := state_after (InMemoryCache.insert "c" (Some (PyInt 3)))
              (enabled 9) c in
  1 <= InMemoryCache.max_size c
  /\ OrderedDict.contains "c" (InMemoryCache.cache c) = false
  /\ NoDup (OrderedDict.keys (InMemoryCache.cache c))
  /\ InMemoryCache.cache c'
     = [("b"%string, Some (PyInt 2)); ("c"%string, Some (PyInt 3))]
  /\ result_of (InMemoryCache.get "a") (enabled 10) c' = Returned None.
Proof.
  intros c c'.
  assert (H1 : 1 <= InMemoryCache.max_size c) by discriminate.
  assert (H2 : OrderedDict.contains "c" (InMemoryCache.cache c) = false)
    by reflexivity.
  assert (H3 : NoDup (OrderedDict.keys (InMemoryCache.cache c))).
  { repeat constructor; simpl; intuition discriminate. }
  assert (H4 : InMemoryCache.max_size c <= InMemoryCache.count c)
    by discriminate.
  destruct (in_memory_insert_new_key c "c" (Some (PyInt 3)) 9 10 H1 H2 H3)
    as [Hcache [_ Hdrop]].
  split; [exact H1|]. split; [exact H2|]. split; [exact H3|].
  split; [exact Hcache|].
  exact (Hdrop H4 "a"%string (Some (PyInt 1))
           [("b"%string, Some (PyInt 2))] eq_refl).
Defined.

(** X2. No call on an in-memory cache raises, whatever the settings, the
    capacity (negative included) and the entries: [popitem] is only
    reached on a dictionary that holds the entry just stored. *)
Theorem in_memory_never_raises {Value : Type} (c : InMemoryCache.t Value)
  env k v n :
  (exists r, result_of (InMemoryCache.get k) env c = Returned r)
  /\ result_of (InMemoryCache.insert k v) env c = Returned None
  /\ result_of (InMemoryCache.reset n) env c = Returned None.
Proof.
  unfold result_of. repeat split.
  - destruct (enable_cache (lotus_settings env)) eqn:E.
    + rewrite im_get_on by assumption. eexists. reflexivity.
    + unfold InMemoryCache.get. rewrite require_cache_enabled_off by assumption.
      eexists. reflexivity.
  - destruct (enable_cache (lotus_settings env)) eqn:E.
    + now rewrite im_insert_on.
    + unfold InMemoryCache.insert. now rewrite require_cache_enabled_off.
  - now rewrite im_reset.
Qed.

(** X3. An [insert] into the in-memory cache changes what is stored under
    two keys at most: the key it writes and the key at the front.  Under
    every other key a [get] returns what it returned before. *)
Theorem in_memory_insert_other_keys {Value : Type}
  (c : InMemoryCache.t Value) env env' k v k' :
  k' <> k ->
  (forall k0 v0 d, InMemoryCache.cache c = (k0, v0) :: d -> k' <> k0) ->
  result_of (InMemoryCache.get k') env'
    (state_after (InMemoryCache.insert k v) env c)
  = result_of (InMemoryCache.get k') env' c.
Proof.
  intros Hk Hfront.
  assert (Hget : OrderedDict.get k'
                   (InMemoryCache.cache
                      (state_after (InMemoryCache.insert k v) env c))
                 = OrderedDict.get k' (InMemoryCache.cache c)).
  { rewrite im_insert_state.
    destruct (enable_cache (lotus_settings env)); [|reflexivity].
    cbv zeta. destruct (_ >? _).
    - destruct (InMemoryCache.cache c) as [|[k0 v0] d] eqn:Hc.
      + reflexivity.
      + specialize (Hfront k0 v0 d eq_refl). simpl.
        apply String.eqb_neq in Hfront. rewrite String.eqb_sym in Hfront.
        destruct (String.eqb k0 k) eqn:E; simpl; rewrite Hfront.
        * reflexivity.
        * apply get_setitem_other. congruence.
    - apply get_setitem_other. congruence. }
  unfold result_of.
  destruct (enable_cache (lotus_settings env')) eqn:E.
  - rewrite !im_get_on by assumption. cbn [fst]. now rewrite Hget.
  - unfold InMemoryCache.get. now rewrite !require_cache_enabled_off.
Qed.

Lemma in_memory_insert_other_keys_witness :
  let c := InMemoryCache.mk 2
             [("a"%string, Some (PyInt 1)); ("b"%string, Some (PyInt 2))] in
  "b"%string <> "c"%string
  /\ result_of (InMemoryCache.get "b") (enabled 9)
       (state_after (InMemoryCache.insert "c" (Some (PyInt 3))) (enabled 8) c)
     = Returned (Some (PyInt 2)).
Proof.
  intros c.
  assert (H1 : "b"%string <> "c"%string) by discriminate.
  assert (H2 : forall k0 v0 d,
             InMemoryCache.cache c = (k0, v0) :: d -> "b"%string <> k0).
  { intros k0 v0 d Hc. injection Hc as <- _ _. discriminate. }
  split; [exact H1|].
  exact (in_memory_insert_other_keys c (enabled 8) (enabled 9) "c"
           (Some (PyInt 3)) "b" H1 H2).
Defined.

(** X4. Every in-memory cache a program can hold, after any sequence of
    [get], [insert] and [reset] calls under any settings, holds at most
    [max(0, max_size)] entries, under keys that are all different. *)
Theorem in_memory_bound_always {Value : Type} (c : InMemoryCache.t Value) :
  InMemoryCache.reachable c ->
  InMemoryCache.count c <= Z.max 0 (InMemoryCache.max_size c)
  /\ NoDup (OrderedDict.keys (InMemoryCache.cache c)).
Proof.
  intros Hr. split; [now apply im_reachable_bound|now apply im_reachable_unique].
Qed.

Lemma in_memory_bound_always_witness :
  let c := state_after (InMemoryCache.perform (Insert "a" (Some (PyInt 1))))
             (enabled 6) (InMemoryCache.mk 0 []) in
  InMemoryCache.reachable c /\ InMemoryCache.count c <= 0.
Proof.
  intros c.
  assert (Hr : InMemoryCache.reachable c).
  { apply InMemoryCache.reachable_call.
    apply (InMemoryCache.reachable_init 0). reflexivity. }
  split; [exact Hr|]. exact (proj1 (in_memory_bound_always c Hr)).
Defined.

Lemma get_tl_other {V : Type} k (d : OrderedDict.t V) :
  (forall k0 v0 d', d = (k0, v0) :: d' -> k <> k0) ->
  OrderedDict.get k (tl d) = OrderedDict.get k d.
Proof.
  destruct d as [|[k0 v0] d']; simpl; [reflexivity|].
  intros Hfront. specialize (Hfront k0 v0 d' eq_refl).
  apply String.eqb_neq in Hfront. rewrite String.eqb_sym in Hfront.
  now rewrite Hfront.
Qed.

(** X5. In an in-memory cache of capacity 2 or more that is within its
    bound, two enabled inserts in a row under different keys, the first
    under a key the cache did not hold, are both read back: the second
    insert does not drop the entry the first one stored. *)
Theorem in_memory_two_new_inserts {Value : Type} (c : InMemoryCache.t Value)
  k1 v1 k2 v2 now1 now2 now3 :
  2 <= InMemoryCache.max_size c ->
  InMemoryCache.count c <= InMemoryCache.max_size c ->
  OrderedDict.contains k1 (InMemoryCache.cache c) = false ->
  k1 <> k2 ->
  let c1 := state_after (InMemoryCache.insert k1 v1) (enabled now1) c in
  let c2 := state_after (InMemoryCache.insert k2 v2) (enabled now2) c1 in
  result_of (InMemoryCache.get k1) (enabled now3) c2 = Returned v1
  /\ result_of (InMemoryCache.get k2) (enabled now3) c2 = Returned v2.
Proof.
  intros HN Hc Hk1 Hne c1 c2.
  assert (Hm1 : InMemoryCache.max_size c1 = InMemoryCache.max_size c)
    by apply im_insert_max_size.
  assert (Hc1 : InMemoryCache.count c1 <= InMemoryCache.max_size c1).
  { rewrite Hm1. apply im_insert_count; [reflexivity|lia|assumption]. }
  assert (Hshape : exists base,
             InMemoryCache.cache c1 = base ++ [(k1, v1)]
             /\ OrderedDict.contains k1 base = false).
  { unfold c1. rewrite in_memory_insert_new_key_aux by (assumption || lia).
    destruct (_ <? _); eexists; split; try reflexivity; try assumption.
    now apply contains_tl_absent. }
  destruct Hshape as [base [Hbase Hbk]].
  unfold result_of. rewrite !im_get_on by reflexivity. cbn [fst]. split.
  - unfold c2. rewrite im_insert_state.
    cbn [enable_cache lotus_settings enabled]. cbv zeta.
    assert (Hd : OrderedDict.get k1
                   (OrderedDict.setitem k2 v2 (InMemoryCache.cache c1))
                 = Some v1).
    { rewrite get_setitem_other by congruence.
      rewrite Hbase, get_app_absent by assumption.
      simpl. now rewrite String.eqb_refl. }
    destruct (Z.gtb_spec
                (OrderedDict.len
                   (OrderedDict.setitem k2 v2 (InMemoryCache.cache c1)))
                (InMemoryCache.max_size c1)) as [Hgt|Hle]; [|now rewrite Hd].
    rewrite get_tl_other; [now rewrite Hd|].
    intros k0 v0 d' Hd' Heq. subst k0.
    unfold OrderedDict.len in Hgt.
    rewrite setitem_length in Hgt.
    assert (Hlen : (2 <= List.length (InMemoryCache.cache c1))%nat).
    { destruct (OrderedDict.contains k2 (InMemoryCache.cache c1)).
      - unfold InMemoryCache.count, OrderedDict.len in Hc1. lia.
      - lia. }
    rewrite Hbase in Hd', Hlen. rewrite length_app in Hlen. simpl in Hlen.
    destruct base as [|[kb vb] base']; [simpl in Hlen; lia|].
    simpl in Hd', Hbk.
    destruct (String.eqb_spec kb k1) as [Hkb|Hkb]; [discriminate|].
    destruct (String.eqb kb k2); injection Hd' as Hh _; congruence.
  - unfold c2. now rewrite (im_insert_lookup k2 v2 (enabled now2) c1) by
      (reflexivity || lia).
Qed.

Lemma in_memory_two_new_inserts_witness :
  let c := InMemoryCache.mk 2
             [("a"%string, Some (PyInt 1)); ("b"%string, Some (PyInt 2))] in
  let c1 := state_after (InMemoryCache.insert "c" (Some (PyInt 3)))
              (enabled 7) c in
  let c2 := state_after (InMemoryCache.insert "d" (Some (PyInt 4)))
              (enabled 8) c1 in
  2 <= InMemoryCache.max_size c
  /\ InMemoryCache.count c <= InMemoryCache.max_size c
  /\ OrderedDict.contains "c" (InMemoryCache.cache c) = false
  /\ "c"%string <> "d"%string
  /\ result_of (InMemoryCache.get "c") (enabled 9) c2
     = Returned (Some (PyInt 3))
  /\ result_of (InMemoryCache.get "d") (enabled 9) c2
     = Returned (Some (PyInt 4)).
Proof.
  intros c c1 c2.
  assert (H1 : 2 <= InMemoryCache.max_size c) by discriminate.
  assert (H2 : InMemoryCache.count c <= InMemoryCache.max_size c)
    by discriminate.
  assert (H3 : OrderedDict.contains "c" (InMemoryCache.cache c) = false)
    by reflexivity.
  assert (H4 : "c"%string <> "d"%string) by discriminate.
  split; [exact H1|]. split; [exact H2|]. split; [exact H3|].
  split; [exact H4|].
  exact (in_memory_two_new_inserts c "c" (Some (PyInt 3)) "d" (Some (PyInt 4))
           7 8 9 H1 H2 H3 H4).
Defined.

(** X6. Writing again under a key does not renew its place in the
    in-memory cache.  When the cache is full and the key at the front is
    overwritten by an enabled [insert], the next enabled [insert] of a new
    key drops that very entry: a [get] of the key just overwritten returns
    [None]. *)
Theorem in_memory_overwrite_keeps_position {Value : Type}
  (c : InMemoryCache.t Value) k v0 v d k' v' now1 now2 now3 :
  InMemoryCache.cache c = (k, v0) :: d ->
  InMemoryCache.count c = InMemoryCache.max_size c ->
  NoDup (OrderedDict.keys (InMemoryCache.cache c)) ->
  OrderedDict.contains k' (InMemoryCache.cache c) = false ->
  let c1 := state_after (InMemoryCache.insert k v) (enabled now1) c in
  let c2 := state_after (InMemoryCache.insert k' v') (enabled now2) c1 in
  InMemoryCache.cache c2 = d ++ [(k', v')]
  /\ result_of (InMemoryCache.get k) (enabled now3) c2 = Returned None
  /\ result_of (InMemoryCache.get k') (enabled now3) c2 = Returned v'.
Proof.
  intros Hc Hfull Hnd Hk' c1 c2.
  assert (HN : 1 <= InMemoryCache.max_size c).
  { rewrite <- Hfull. unfold InMemoryCache.count, OrderedDict.len.
    rewrite Hc. simpl. lia. }
  assert (H1 : c1 = InMemoryCache.mk (InMemoryCache.max_size c) ((k, v) :: d)).
  { unfold c1. rewrite im_insert_present; [|reflexivity|lia|].
    - rewrite Hc. simpl. now rewrite String.eqb_refl.
    - rewrite Hc. simpl. now rewrite String.eqb_refl. }
  assert (Hkd : OrderedDict.contains k d = false).
  { rewrite Hc in Hnd. simpl in Hnd. inversion Hnd as [|? ? Hx _]; subst.
    destruct (OrderedDict.contains k d) eqn:E; [|reflexivity].
    apply contains_In_keys in E. contradiction. }
  assert (Hne : k <> k').
  { rewrite Hc in Hk'. simpl in Hk'.
    destruct (String.eqb_spec k k'); [discriminate|assumption]. }
  assert (Hk'd : OrderedDict.contains k' d = false).
  { rewrite Hc in Hk'. simpl in Hk'.
    destruct (String.eqb k k'); [discriminate|assumption]. }
  assert (H2 : InMemoryCache.cache c2 = d ++ [(k', v')]).
  { unfold c2. rewrite in_memory_insert_new_key_aux.
    - rewrite H1. cbn [InMemoryCache.cache InMemoryCache.max_size].
      unfold InMemoryCache.count, OrderedDict.len in *.
      cbn [InMemoryCache.cache]. rewrite Hc in Hfull. simpl in Hfull |- *.
      destruct (Z.ltb_spec
                  (Z.pos (Pos.of_succ_nat (List.length d)))
                  (InMemoryCache.max_size c)); [lia|reflexivity].
    - now rewrite H1.
    - rewrite H1. cbn [InMemoryCache.cache]. simpl.
      apply String.eqb_neq in Hne. now rewrite Hne. }
  split; [exact H2|].
  unfold result_of. rewrite !im_get_on by reflexivity. cbn [fst].
  rewrite H2. split.
  - rewrite get_app_absent by assumption. simpl.
    apply String.eqb_neq in Hne. rewrite String.eqb_sym in Hne.
    now rewrite Hne.
  - rewrite get_app_absent by assumption. simpl.
    now rewrite String.eqb_refl.
Qed.

Lemma in_memory_overwrite_keeps_position_witness :
  let c := InMemoryCache.mk 2
             [("a"%string, Some (PyInt 1)); ("b"%string, Some (PyInt 2))] in
  let c1 := state_after (InMemoryCache.insert "a" (Some (PyInt 5)))
              (enabled 7) c in
  let c2 := state_after (InMemoryCache.insert "c" (Some (PyInt 3)))
              (enabled 8) c1 in
  InMemoryCache.count c = InMemoryCache.max_size c
  /\ NoDup (OrderedDict.keys (InMemoryCache.cache c))
  /\ OrderedDict.contains "c" (InMemoryCache.cache c) = false
  /\ result_of (InMemoryCache.get "a") (enabled 9) c2 = Returned None.
Proof.
  intros c c1 c2.
  assert (H1 : InMemoryCache.count c = InMemoryCache.max_size c)
    by reflexivity.
  assert (H2 : NoDup (OrderedDict.keys (InMemoryCache.cache c))).
  { repeat constructor; simpl; intuition discriminate. }
  assert (H3 : OrderedDict.contains "c" (InMemoryCache.cache c) = false)
    by reflexivity.
  split; [exact H1|]. split; [exact H2|]. split; [exact H3|].
  exact (proj1 (proj2
    (in_memory_overwrite_keeps_position c "a" (Some (PyInt 1)) (Some (PyInt 5))
       [("b"%string, Some (PyInt 2))] "c" (Some (PyInt 3)) 7 8 9
       eq_refl H1 H2 H3))).
Defined.

(** ** SQLiteCache: reads, other keys, errors and bounds *)

Section DurableRows.
Context {Blob : Type}.
Implicit Types (r : SQLiteCache.Row Blob) (rows : list (SQLiteCache.Row Blob))
  (k : string) (b : Blob).

Lemma select_value_found k b rows :
  SQLiteCache.select_value k rows = Some b ->
  exists r, In r rows /\ SQLiteCache.key r = k /\ SQLiteCache.value r = b.
Proof.
  induction rows as [|x rows IH]; simpl; [discriminate|].
  destruct (String.eqb_spec (SQLiteCache.key x) k) as [Heq|Hne].
  - intros Hb. injection Hb as <-. exists x. auto.
  - intros Hb. destruct (IH Hb) as [r [Hin Hr]]. exists r. auto.
Qed.

Lemma select_value_unique k r rows :
  SQLiteCache.unique_keys rows -> In r rows -> SQLiteCache.key r = k ->
  SQLiteCache.select_value k rows = Some (SQLiteCache.value r).
Proof.
  unfold SQLiteCache.unique_keys.
  induction rows as [|x rows IH]; simpl; [contradiction|].
  intros Hnd Hin Hk. inversion Hnd as [|? ? Hx Hnd']; subst.
  destruct Hin as [->|Hin]; [now rewrite String.eqb_refl|].
  destruct (String.eqb_spec (SQLiteCache.key x) (SQLiteCache.key r))
    as [Heq|Hne]; [|now apply IH].
  exfalso. apply Hx. rewrite Heq. now apply in_map.
Qed.

Lemma select_value_update now k k0 rows :
  SQLiteCache.select_value k0 (SQLiteCache.update_last_accessed now k rows)
  = SQLiteCache.select_value k0 rows.
Proof.
  unfold SQLiteCache.update_last_accessed.
  induction rows as [|x rows IH]; simpl; [reflexivity|].
  destruct (String.eqb (SQLiteCache.key x) k); simpl; now rewrite IH.
Qed.

Lemma update_last_accessed_values now k rows :
  map (@SQLiteCache.value Blob) (SQLiteCache.update_last_accessed now k rows)
  = map (@SQLiteCache.value Blob) rows.
Proof.
  unfold SQLiteCache.update_last_accessed. rewrite map_map.
  apply map_ext. intros r. now destruct (String.eqb (SQLiteCache.key r) k).
Qed.

Lemma update_last_accessed_In now k rows r' :
  In r' (SQLiteCache.update_last_accessed now k rows) ->
  (SQLiteCache.key r' = k /\ SQLiteCache.last_accessed r' = now)
  \/ (SQLiteCache.key r' <> k /\ In r' rows).
Proof.
  unfold SQLiteCache.update_last_accessed. intros Hin.
  apply in_map_iff in Hin. destruct Hin as [r [Heq Hin]].
  destruct (String.eqb_spec (SQLiteCache.key r) k) as [Hk|Hk]; subst r'.
  - left. simpl. auto.
  - right. auto.
Qed.

Lemma update_last_accessed_other now k rows r :
  SQLiteCache.key r <> k -> In r rows ->
  In r (SQLiteCache.update_last_accessed now k rows).
Proof.
  unfold SQLiteCache.update_last_accessed. intros Hk Hin.
  apply in_map_iff. exists r. split; [|exact Hin].
  apply String.eqb_neq in Hk. now rewrite Hk.
Qed.

Lemma delete_all_keys rows rows' :
  (forall r, In r rows -> In (SQLiteCache.key r)
                            (map (@SQLiteCache.key Blob) rows')) ->
  SQLiteCache.delete_where_key_in (map (@SQLiteCache.key Blob) rows') rows = [].
Proof.
  unfold SQLiteCache.delete_where_key_in.
  induction rows as [|x rows IH]; simpl; intros Hall; [reflexivity|].
  assert (Hx : existsb (String.eqb (SQLiteCache.key x))
                 (map (@SQLiteCache.key Blob) rows') = true).
  { apply existsb_eqb_In. apply Hall. now left. }
  rewrite Hx. simpl. apply IH. intros r Hr. apply Hall. now right.
Qed.
End DurableRows.

(** X7. A [get] of a key that is not stored returns [None], raises
    nothing and leaves the cache as it was, on both backends and under any
    settings. *)
Theorem get_missing_key {Value Blob : Type} {pickle : Pickle Value Blob} :
  (forall (c : InMemoryCache.t Value) k env,
      OrderedDict.contains k (InMemoryCache.cache c) = false ->
      InMemoryCache.get k env c = (Returned None, c))
  /\ (forall (c : SQLiteCache.t Blob) k env,
      ~ In k (SQLiteCache.keys c) ->
      SQLiteCache.get (Value:=Value) k env c = (Returned None, c)).
Proof.
  split; intros c k env Hk.
  - destruct (enable_cache (lotus_settings env)) eqn:E.
    + rewrite im_get_on by assumption.
      apply contains_false_get in Hk. now rewrite Hk.
    + unfold InMemoryCache.get. now rewrite require_cache_enabled_off.
  - destruct (enable_cache (lotus_settings env)) eqn:E.
    + rewrite sq_get_on by assumption.
      now rewrite select_value_absent.
    + unfold SQLiteCache.get. now rewrite require_cache_enabled_off.
Qed.

Lemma get_missing_key_witness :
  (let c := InMemoryCache.mk 2 [("a"%string, Some (PyInt 1))] in
   OrderedDict.contains "b" (InMemoryCache.cache c) = false
   /\ InMemoryCache.get "b" (enabled 3) c = (Returned None, c))
  /\ (let c := SQLiteCache.mk 2 [SQLiteCache.mkRow "a" (Some 1) 1] in
      ~ In "b"%string (SQLiteCache.keys c)
      /\ SQLiteCache.get (Value:=PyVal) "b" (enabled 3) c
         = (Returned None, c)).
Proof.
  destruct (get_missing_key (Value:=PyVal) (Blob:=option Z)) as [Him Hsq].
  split.
  - intros c.
    assert (H : OrderedDict.contains "b" (InMemoryCache.cache c) = false)
      by reflexivity.
    split; [exact H|exact (Him c "b"%string (enabled 3) H)].
  - intros c.
    assert (H : ~ In "b"%string (SQLiteCache.keys c)).
    { simpl. intuition discriminate. }
    split; [exact H|exact (Hsq c "b"%string (enabled 3) H)].
Defined.

(** X8. An enabled [get] of a stored key whose value loads returns the
    value and changes one thing only: the [last_accessed] of the row under
    that key becomes the clock reading.  The capacity, the keys and values
    in rowid order and every row under another key are as before. *)
Theorem durable_get_hit {Value Blob : Type} {pickle : Pickle Value Blob}
  (c : SQLiteCache.t Blob) k blob (v : option Value) now :
  SQLiteCache.select_value k (SQLiteCache.conn c) = Some blob ->
  loads blob = Returned v ->
  let c' := state_after (SQLiteCache.get (Value:=Value) k) (enabled now) c in
  result_of (SQLiteCache.get k) (enabled now) c = Returned v
  /\ SQLiteCache.max_size c' = SQLiteCache.max_size c
  /\ SQLiteCache.keys c' = SQLiteCache.keys c
  /\ map (@SQLiteCache.value Blob) (SQLiteCache.conn c')
     = map (@SQLiteCache.value Blob) (SQLiteCache.conn c)
  /\ (forall r, In r (SQLiteCache.conn c') -> SQLiteCache.key r = k ->
        SQLiteCache.last_accessed r = now)
  /\ (forall r, SQLiteCache.key r <> k ->
        (In r (SQLiteCache.conn c') <-> In r (SQLiteCache.conn c))).
Proof.
  intros Hsel Hload c'.
  assert (Hc' : c' = SQLiteCache.mk (SQLiteCache.max_size c)
                       (SQLiteCache.update_last_accessed now k
                          (SQLiteCache.conn c))).
  { unfold c', state_after. rewrite sq_get_on by reflexivity.
    now rewrite Hsel, Hload. }
  split.
  { unfold result_of. rewrite sq_get_on by reflexivity.
    now rewrite Hsel, Hload. }
  rewrite Hc'. cbn [SQLiteCache.max_size SQLiteCache.conn].
  unfold SQLiteCache.keys. cbn [SQLiteCache.conn].
  split; [reflexivity|]. split; [apply update_last_accessed_keys|].
  split; [apply update_last_accessed_values|]. split.
  - intros r Hin Hk.
    destruct (update_last_accessed_In _ _ _ _ Hin) as [[_ H]|[H _]];
      [exact H|contradiction].
  - intros r Hk. split.
    + intros Hin.
      destruct (update_last_accessed_In _ _ _ _ Hin) as [[H _]|[_ H]];
        [contradiction|exact H].
    + now apply update_last_accessed_other.
Qed.

Lemma durable_get_hit_witness :
  let c := SQLiteCache.mk 2
             [SQLiteCache.mkRow "a" (Some 1) 1;
              SQLiteCache.mkRow "b" (Some 2) 2] in
  SQLiteCache.select_value "a" (SQLiteCache.conn c) = Some (Some 1)
  /\ loads (Some 1) = Returned (Some (PyInt 1))
  /\ result_of (SQLiteCache.get "a") (enabled 9) c = Returned (Some (PyInt 1))
  /\ SQLiteCache.keys
       (state_after (SQLiteCache.get (Value:=PyVal) "a") (enabled 9) c)
     = ["a"; "b"]%string.
Proof.
  intros c.
  assert (H1 : SQLiteCache.select_value "a" (SQLiteCache.conn c)
               = Some (Some 1)) by reflexivity.
  assert (H2 : loads (Some 1) = Returned (Some (PyInt 1))) by reflexivity.
  destruct (durable_get_hit (Value:=PyVal) c "a" (Some 1) (Some (PyInt 1)) 9
              H1 H2) as [Hres [_ [Hkeys _]]].
  split; [exact H1|]. split; [exact H2|]. split; [exact Hres|exact Hkeys].
Defined.

Section DurableRecency.
Context {Blob : Type}.
Implicit Types (r : SQLiteCache.Row Blob) (rows : list (SQLiteCache.Row Blob)).

Lemma NoDup_all_same {A} (a : A) (l : list A) :
  NoDup l -> (forall x, In x l -> x = a) -> (List.length l <= 1)%nat.
Proof.
  intros Hnd Hall. destruct l as [|x [|y l]]; simpl; try lia.
  exfalso. inversion Hnd as [|? ? Hx _]; subst. apply Hx.
  rewrite (Hall x), (Hall y); simpl; auto.
Qed.

(** Over the bound [N >= 2], the DELETE of [_enforce_size_limit] spares a
    row that is younger than every row but one. *)
Lemma enforce_keeps_young (N : Z) rows r0 new :
  2 <= N -> SQLiteCache.unique_keys rows ->
  In r0 rows -> In new rows ->
  (forall x, In x rows -> SQLiteCache.key x <> SQLiteCache.key r0 ->
     SQLiteCache.key x <> SQLiteCache.key new ->
     SQLiteCache.last_accessed x < SQLiteCache.last_accessed r0) ->
  N < SQLiteCache.select_count rows ->
  In r0 (SQLiteCache.delete_where_key_in
           (SQLiteCache.select_key_order_by_last_accessed_limit
              (SQLiteCache.select_count rows - N) rows) rows).
Proof.
  intros HN Hu Hr0 Hnew Hyoung Hover.
  unfold SQLiteCache.select_key_order_by_last_accessed_limit.
  rewrite limit_nonneg by lia.
  set (n := Z.to_nat (SQLiteCache.select_count rows - N)).
  apply delete_oldest_In; [exact Hu|].
  set (s := SQLiteCache.order_by_last_accessed rows).
  pose proof (order_by_perm rows) as Hp. fold s in Hp.
  assert (Hus : SQLiteCache.unique_keys s)
    by (eapply unique_keys_perm; [symmetry; exact Hp|exact Hu]).
  assert (Hnd : NoDup (firstn n s ++ skipn n s)).
  { rewrite firstn_skipn. exact (NoDup_map_inv (@SQLiteCache.key Blob) _ Hus). }
  assert (Hsorted : StronglySorted (@SQLiteCache.older Blob)
                      (firstn n s ++ skipn n s)).
  { rewrite firstn_skipn. apply order_by_sorted. }
  assert (Hin : In r0 (firstn n s ++ skipn n s)).
  { rewrite firstn_skipn. exact (Permutation_in _ (Permutation_sym Hp) Hr0). }
  apply in_app_or in Hin. destruct Hin as [Hfirst|Hskip]; [|exact Hskip].
  exfalso.
  assert (Hlen : (2 <= List.length (skipn n s))%nat).
  { rewrite length_skipn. unfold s.
    rewrite (Permutation_length (order_by_perm rows)).
    unfold n, SQLiteCache.select_count in *. lia. }
  assert (Hall : forall x, In x (skipn n s) -> x = new).
  { intros x Hx.
    assert (Hxs : In x s) by (rewrite <- (firstn_skipn n s);
                              apply in_or_app; now right).
    assert (Hxrows : In x rows) by exact (Permutation_in _ Hp Hxs).
    assert (Hold : SQLiteCache.older r0 x)
      by exact (strongly_sorted_split _ _ Hsorted r0 x Hfirst Hx).
    unfold SQLiteCache.older in Hold.
    destruct (string_dec (SQLiteCache.key x) (SQLiteCache.key new))
      as [Hk|Hk]; [exact (unique_keys_inj rows x new Hu Hxrows Hnew Hk)|].
    destruct (string_dec (SQLiteCache.key x) (SQLiteCache.key r0))
      as [Hk0|Hk0].
    - assert (x = r0) by exact (unique_keys_inj rows x r0 Hu Hxrows Hr0 Hk0).
      subst x. exfalso. exact (NoDup_app_disjoint _ _ r0 Hnd Hfirst Hx).
    - specialize (Hyoung x Hxrows Hk0 Hk). lia. }
  pose proof (NoDup_all_same new (skipn n s)
                (NoDup_app_remove_l _ _ Hnd) Hall).
  lia.
Qed.
End DurableRecency.

(** X9. The durable cache renews an entry when it is read.  In a cache of
    capacity 2 or more, a stored key is read by an enabled [get] at a clock
    reading later than the [last_accessed] of every other row; the next
    enabled [insert], under another key, does not delete it: a [get] of
    the key still returns its value. *)
Theorem durable_read_protects {Value Blob : Type} {pickle : Pickle Value Blob}
  (c : SQLiteCache.t Blob) k blob (v : option Value) k' v' b' t t' t'' :
  2 <= SQLiteCache.max_size c ->
  SQLiteCache.unique_keys (SQLiteCache.conn c) ->
  SQLiteCache.select_value k (SQLiteCache.conn c) = Some blob ->
  loads blob = Returned v ->
  (forall r, In r (SQLiteCache.conn c) -> SQLiteCache.key r <> k ->
     SQLiteCache.last_accessed r < t) ->
  k' <> k -> dumps v' = Returned b' ->
  let c1 := state_after (SQLiteCache.get (Value:=Value) k) (enabled t) c in
  let c2 := state_after (SQLiteCache.insert k' v') (enabled t') c1 in
  result_of (SQLiteCache.get k) (enabled t'') c2 = Returned v.
Proof.
  intros HN Hu Hsel Hload Hold Hne Hb' c1 c2.
  set (rows1 := SQLiteCache.update_last_accessed t k (SQLiteCache.conn c)).
  assert (Hc1 : c1 = SQLiteCache.mk (SQLiteCache.max_size c) rows1).
  { unfold c1, state_after. rewrite sq_get_on by reflexivity.
    now rewrite Hsel, Hload. }
  assert (Hu1 : SQLiteCache.unique_keys rows1).
  { unfold SQLiteCache.unique_keys, rows1.
    now rewrite update_last_accessed_keys. }
  assert (Hsel1 : SQLiteCache.select_value k rows1 = Some blob).
  { unfold rows1. now rewrite select_value_update. }
  destruct (select_value_found _ _ _ Hsel1) as [r0 [Hr0 [Hk0 Hv0]]].
  assert (Ht0 : SQLiteCache.last_accessed r0 = t).
  { destruct (update_last_accessed_In _ _ _ _ Hr0) as [[_ H]|[H _]];
      [exact H|contradiction]. }
  set (new := SQLiteCache.mkRow k' b' t').
  set (up := SQLiteCache.insert_or_replace k' b' t' rows1).
  assert (Huu : SQLiteCache.unique_keys up)
    by now apply insert_or_replace_unique.
  assert (Hr0up : In r0 up).
  { unfold up, SQLiteCache.insert_or_replace. apply in_or_app. left.
    apply filter_In. split; [exact Hr0|].
    rewrite Hk0. apply negb_true_iff, String.eqb_neq. congruence. }
  assert (Hnewup : In new up).
  { unfold up, SQLiteCache.insert_or_replace. apply in_or_app.
    right. now left. }
  assert (Hyoung : forall x, In x up ->
            SQLiteCache.key x <> SQLiteCache.key r0 ->
            SQLiteCache.key x <> SQLiteCache.key new ->
            SQLiteCache.last_accessed x < SQLiteCache.last_accessed r0).
  { intros x Hx Hx0 Hxn. rewrite Ht0. rewrite Hk0 in Hx0.
    unfold up, SQLiteCache.insert_or_replace in Hx.
    apply in_app_or in Hx. destruct Hx as [Hx|[<-|[]]].
    - apply filter_In in Hx. destruct Hx as [Hx _].
      destruct (update_last_accessed_In _ _ _ _ Hx) as [[H _]|[_ H]];
        [contradiction|]. now apply Hold.
    - exfalso. now apply Hxn. }
  assert (Hc2 : In r0 (SQLiteCache.conn c2)
                /\ SQLiteCache.unique_keys (SQLiteCache.conn c2)).
  { unfold c2, state_after. rewrite (sq_insert_on k' v' b') by auto.
    rewrite Hc1. cbn [snd SQLiteCache.conn SQLiteCache.max_size time_time
                        enabled]. cbv zeta. fold up.
    destruct (Z.gtb_spec (SQLiteCache.select_count up)
                (SQLiteCache.max_size c)) as [Hgt|Hle].
    - split; [now apply enforce_keeps_young with (new := new)|].
      now apply unique_keys_filter.
    - split; assumption. }
  destruct Hc2 as [Hin2 Hu2].
  unfold result_of. rewrite sq_get_on by reflexivity.
  rewrite (select_value_unique k r0 _ Hu2 Hin2 Hk0), Hv0.
  now rewrite Hload.
Qed.

Lemma durable_read_protects_witness :
  let c := SQLiteCache.mk 2
             [SQLiteCache.mkRow "a" (Some 1) 1;
              SQLiteCache.mkRow "b" (Some 2) 2] in
  let c1 := state_after (SQLiteCache.get (Value:=PyVal) "a") (enabled 3) c in
  let c2 := state_after (SQLiteCache.insert "c" (Some (PyInt 3)))
              (enabled 4) c1 in
  2 <= SQLiteCache.max_size c
  /\ SQLiteCache.unique_keys (SQLiteCache.conn c)
  /\ SQLiteCache.keys c2 = ["a"; "c"]%string
  /\ result_of (SQLiteCache.get "a") (enabled 5) c2
     = Returned (Some (PyInt 1)).
Proof.
  intros c c1 c2.
  assert (H1 : 2 <= SQLiteCache.max_size c) by discriminate.
  assert (H2 : SQLiteCache.unique_keys (SQLiteCache.conn c)).
  { repeat constructor; simpl; intuition discriminate. }
  assert (H3 : SQLiteCache.select_value "a" (SQLiteCache.conn c)
               = Some (Some 1)) by reflexivity.
  assert (H4 : loads (Some 1) = Returned (Some (PyInt 1))) by reflexivity.
  assert (H5 : forall r, In r (SQLiteCache.conn c) ->
                 SQLiteCache.key r <> "a"%string ->
                 SQLiteCache.last_accessed r < 3).
  { intros r [<-|[<-|[]]] Hk; simpl in *; [congruence|reflexivity]. }
  assert (H6 : "c"%string <> "a"%string) by discriminate.
  assert (H8 : dumps (Some (PyInt 3)) = Returned (Some 3)) by reflexivity.
  split; [exact H1|]. split; [exact H2|]. split; [reflexivity|].
  exact (durable_read_protects (Value:=PyVal) c "a" (Some 1) (Some (PyInt 1))
           "c" (Some (PyInt 3)) (Some 3) 3 4 5 H1 H2 H3 H4 H5 H6 H8).
Defined.

Section DurableTwoInserts.
Context {Blob : Type}.

(** Over the bound [N >= 2], the DELETE of [_enforce_size_limit] spares the
    last two rows when each is as young as every row before it. *)
Lemma enforce_keeps_last_two (N : Z) (pre : list (SQLiteCache.Row Blob))
  r1 r2 :
  2 <= N ->
  SQLiteCache.unique_keys (pre ++ [r1] ++ [r2]) ->
  Forall (fun r => SQLiteCache.last_accessed r
                   <= SQLiteCache.last_accessed r1) pre ->
  SQLiteCache.last_accessed r1 <= SQLiteCache.last_accessed r2 ->
  N < SQLiteCache.select_count (pre ++ [r1] ++ [r2]) ->
  let rows' :=
    SQLiteCache.delete_where_key_in
      (SQLiteCache.select_key_order_by_last_accessed_limit
         (SQLiteCache.select_count (pre ++ [r1] ++ [r2]) - N)
         (pre ++ [r1] ++ [r2]))
      (pre ++ [r1] ++ [r2]) in
  In r1 rows' /\ In r2 rows'.
Proof.
  intros HN Hu Hpre H12 Hover rows'.
  set (up := pre ++ [r1] ++ [r2]) in *.
  assert (Hs : SQLiteCache.order_by_last_accessed up
               = SQLiteCache.order_by_last_accessed pre ++ [r1] ++ [r2]).
  { unfold up. rewrite app_assoc.
    rewrite order_by_app_last.
    - rewrite order_by_app_last by exact Hpre. now rewrite <- app_assoc.
    - apply Forall_app. split.
      + eapply Forall_impl; [|exact Hpre]. intros r Hr. simpl in Hr. lia.
      + repeat constructor. exact H12. }
  assert (Hskip : forall r, In r [r1; r2] ->
            In r (skipn (Z.to_nat (SQLiteCache.select_count up - N))
                    (SQLiteCache.order_by_last_accessed up))).
  { intros r Hr. rewrite Hs, skipn_app. apply in_or_app. right.
    replace (Z.to_nat (SQLiteCache.select_count up - N)
             - List.length (SQLiteCache.order_by_last_accessed pre))%nat
      with 0%nat; [exact Hr|].
    rewrite (Permutation_length (order_by_perm pre)).
    unfold up, SQLiteCache.select_count. rewrite !length_app. simpl. lia. }
  unfold rows', SQLiteCache.select_key_order_by_last_accessed_limit.
  rewrite limit_nonneg by lia.
  split; apply delete_oldest_In; try exact Hu; apply Hskip; simpl; auto.
Qed.
End DurableTwoInserts.

(** X10. The durable cache keeps the entry before the last.  In a cache of
    capacity 2 or more, with unique keys and no row stamped after the
    first clock reading, two enabled inserts under different keys, the
    second not earlier than the first, are both read back, equal clock
    readings included. *)
Theorem durable_two_inserts {Value Blob : Type} {pickle : Pickle Value Blob}
  (c : SQLiteCache.t Blob) k1 (v1 : option Value) b1 k2 (v2 : option Value) b2
  t1 t2 t3 :
  2 <= SQLiteCache.max_size c ->
  SQLiteCache.unique_keys (SQLiteCache.conn c) ->
  SQLiteCache.not_after t1 (SQLiteCache.conn c) ->
  k1 <> k2 -> t1 <= t2 ->
  dumps v1 = Returned b1 -> dumps v2 = Returned b2 ->
  let c1 := state_after (SQLiteCache.insert k1 v1) (enabled t1) c in
  let c2 := state_after (SQLiteCache.insert k2 v2) (enabled t2) c1 in
  result_of (SQLiteCache.get k1) (enabled t3) c2 = Returned v1
  /\ result_of (SQLiteCache.get k2) (enabled t3) c2 = Returned v2.
Proof.
  intros HN Hu Hf Hne H12 Hb1 Hb2 c1 c2.
  destruct (inserted_shape (SQLiteCache.max_size c) k1 b1 t1
              (SQLiteCache.conn c) ltac:(lia) Hu Hf)
    as [pre [Heq [Hpu [Hpk Hsub]]]].
  cbv zeta in Heq.
  set (r1 := SQLiteCache.mkRow k1 b1 t1) in *.
  set (r2 := SQLiteCache.mkRow k2 b2 t2).
  assert (H1 : c1 = SQLiteCache.mk (SQLiteCache.max_size c) (pre ++ [r1])).
  { unfold c1, state_after. rewrite (sq_insert_on k1 v1 b1) by auto.
    cbn [snd time_time enabled]. cbv zeta. now rewrite Heq. }
  assert (Hpre : Forall (fun r => SQLiteCache.last_accessed r <= t1) pre).
  { unfold SQLiteCache.not_after in Hf. rewrite Forall_forall in *.
    intros r Hr. apply Hf, Hsub, Hr. }
  set (pre2 := filter (fun r => negb (String.eqb (SQLiteCache.key r) k2)) pre).
  assert (Hup : SQLiteCache.insert_or_replace k2 b2 t2 (pre ++ [r1])
                = pre2 ++ [r1] ++ [r2]).
  { unfold SQLiteCache.insert_or_replace. rewrite filter_app. simpl.
    apply String.eqb_neq in Hne. rewrite Hne. simpl.
    now rewrite <- app_assoc. }
  assert (Hu1 : SQLiteCache.unique_keys (pre ++ [r1]))
    by (apply unique_keys_snoc; assumption).
  assert (Huu : SQLiteCache.unique_keys (pre2 ++ [r1] ++ [r2])).
  { rewrite <- Hup. now apply insert_or_replace_unique. }
  assert (Hpre2 : Forall (fun r => SQLiteCache.last_accessed r
                                   <= SQLiteCache.last_accessed r1) pre2).
  { rewrite Forall_forall in *. intros r Hr. apply filter_In in Hr.
    simpl. apply Hpre. tauto. }
  assert (Hc2 : In r1 (SQLiteCache.conn c2) /\ In r2 (SQLiteCache.conn c2)
                /\ SQLiteCache.unique_keys (SQLiteCache.conn c2)).
  { unfold c2, state_after. rewrite (sq_insert_on k2 v2 b2) by auto.
    rewrite H1. cbn [snd SQLiteCache.conn SQLiteCache.max_size time_time
                       enabled]. cbv zeta. rewrite Hup.
    destruct (Z.gtb_spec (SQLiteCache.select_count (pre2 ++ [r1] ++ [r2]))
                (SQLiteCache.max_size c)) as [Hgt|Hle].
    - destruct (enforce_keeps_last_two (SQLiteCache.max_size c) pre2 r1 r2
                  HN Huu Hpre2 H12 Hgt) as [Hi1 Hi2].
      split; [exact Hi1|]. split; [exact Hi2|].
      now apply unique_keys_filter.
    - split; [apply in_or_app; right; simpl; auto|].
      split; [apply in_or_app; right; simpl; auto|exact Huu]. }
  destruct Hc2 as [Hi1 [Hi2 Hu2]].
  unfold result_of. rewrite !sq_get_on by reflexivity.
  rewrite (select_value_unique k1 r1 _ Hu2 Hi1 eq_refl).
  rewrite (select_value_unique k2 r2 _ Hu2 Hi2 eq_refl).
  cbn [SQLiteCache.value r1 r2].
  now rewrite (loads_dumps v1 b1 Hb1), (loads_dumps v2 b2 Hb2).
Qed.

Lemma durable_two_inserts_witness :
  let c := SQLiteCache.mk 2
             [SQLiteCache.mkRow "a" (Some 1) 7;
              SQLiteCache.mkRow "b" (Some 2) 7] in
  let c1 := state_after (SQLiteCache.insert "c" (Some (PyInt 3)))
              (enabled 7) c in
  let c2 := state_after (SQLiteCache.insert "d" (Some (PyInt 4)))
              (enabled 7) c1 in
  2 <= SQLiteCache.max_size c
  /\ SQLiteCache.unique_keys (SQLiteCache.conn c)
  /\ SQLiteCache.not_after 7 (SQLiteCache.conn c)
  /\ result_of (SQLiteCache.get "c") (enabled 8) c2
     = Returned (Some (PyInt 3))
  /\ result_of (SQLiteCache.get "d") (enabled 8) c2
     = Returned (Some (PyInt 4)).
Proof.
  intros c c1 c2.
  assert (H1 : 2 <= SQLiteCache.max_size c) by discriminate.
  assert (H2 : SQLiteCache.unique_keys (SQLiteCache.conn c)).
  { repeat constructor; simpl; intuition discriminate. }
  assert (H3 : SQLiteCache.not_after 7 (SQLiteCache.conn c)).
  { repeat constructor; simpl; discriminate. }
  assert (H4 : "c"%string <> "d"%string) by discriminate.
  assert (H5 : 7 <= 7) by discriminate.
  assert (Hd : forall z, dumps (Some (PyInt z)) = Returned (Some z))
    by reflexivity.
  split; [exact H1|]. split; [exact H2|]. split; [exact H3|].
  exact (durable_two_inserts (Value:=PyVal) c "c" (Some (PyInt 3)) (Some 3)
           "d" (Some (PyInt 4)) (Some 4) 7 7 8 H1 H2 H3 H4 H5 (Hd 3) (Hd 4)).
Defined.

(** The rows an [insert] leaves, under any settings and for any value, are
    rows of the table after the upsert, or the table is as it was. *)
Lemma sq_insert_rows {Value Blob : Type} {pickle : Pickle Value Blob}
  (c : SQLiteCache.t Blob) k (v : option Value) env :
  SQLiteCache.conn (state_after (SQLiteCache.insert k v) env c)
  = SQLiteCache.conn c
  \/ exists b,
       dumps v = Returned b
       /\ forall r, In r (SQLiteCache.conn
                            (state_after (SQLiteCache.insert k v) env c)) ->
            In r (SQLiteCache.insert_or_replace k b (time_time env)
                    (SQLiteCache.conn c)).
Proof.
  unfold state_after.
  destruct (enable_cache (lotus_settings env)) eqn:E.
  - destruct (dumps v) as [b|e] eqn:Hb.
    + right. exists b. split; [reflexivity|].
      rewrite (sq_insert_on _ _ _ _ _ E Hb). cbn [snd SQLiteCache.conn].
      cbv zeta. destruct (_ >? _); [|tauto].
      intros r Hr. apply delete_where_key_in_In in Hr. tauto.
    + left. now rewrite (sq_insert_raises _ _ _ _ _ E Hb).
  - left. unfold SQLiteCache.insert.
    now rewrite require_cache_enabled_off.
Qed.

(** X11. An [insert] into the durable cache, under any settings, never
    changes what is stored under another key: a row it leaves under
    another key is a row that was there, with its value and
    [last_accessed], and a [get] of another key returns what it returned
    before the [insert], or [None] when the row was deleted. *)
Theorem durable_insert_other_keys {Value Blob : Type}
  {pickle : Pickle Value Blob} (c : SQLiteCache.t Blob) k (v : option Value)
  k' env env' :
  SQLiteCache.unique_keys (SQLiteCache.conn c) ->
  k' <> k ->
  let c' := state_after (SQLiteCache.insert k v) env c in
  (forall r, In r (SQLiteCache.conn c') -> SQLiteCache.key r = k' ->
     In r (SQLiteCache.conn c))
  /\ (result_of (SQLiteCache.get (Value:=Value) k') env' c' = Returned None
      \/ result_of (SQLiteCache.get (Value:=Value) k') env' c'
         = result_of (SQLiteCache.get (Value:=Value) k') env' c).
Proof.
  intros Hu Hne c'.
  assert (Hrows : forall r, In r (SQLiteCache.conn c') ->
            SQLiteCache.key r = k' -> In r (SQLiteCache.conn c)).
  { intros r Hr Hk.
    destruct (sq_insert_rows c k v env) as [Hsame|[b [_ Hsub]]].
    - unfold c' in Hr. now rewrite Hsame in Hr.
    - apply Hsub in Hr. unfold SQLiteCache.insert_or_replace in Hr.
      apply in_app_or in Hr. destruct Hr as [Hr|[<-|[]]].
      + apply filter_In in Hr. tauto.
      + simpl in Hk. congruence. }
  split; [exact Hrows|].
  assert (Hu' : SQLiteCache.unique_keys (SQLiteCache.conn c')).
  { unfold c', state_after.
    destruct (enable_cache (lotus_settings env)) eqn:E.
    - destruct (dumps v) as [b|e] eqn:Hb.
      + rewrite (sq_insert_on _ _ _ _ _ E Hb). cbn [snd SQLiteCache.conn].
        now apply inserted_unique.
      + now rewrite (sq_insert_raises _ _ _ _ _ E Hb).
    - unfold SQLiteCache.insert.
      now rewrite require_cache_enabled_off. }
  unfold result_of.
  destruct (enable_cache (lotus_settings env')) eqn:E'.
  - rewrite !sq_get_on by assumption.
    destruct (SQLiteCache.select_value k' (SQLiteCache.conn c')) as [b'|]
      eqn:Hsel; [|now left].
    right.
    destruct (select_value_found _ _ _ Hsel) as [r [Hr [Hk Hv]]].
    rewrite (select_value_unique k' r _ Hu (Hrows r Hr Hk) Hk), Hv.
    now destruct (loads b').
  - left. unfold SQLiteCache.get. now rewrite require_cache_enabled_off.
Qed.

Lemma durable_insert_other_keys_witness :
  let c := SQLiteCache.mk 2
             [SQLiteCache.mkRow "a" (Some 1) 1;
              SQLiteCache.mkRow "b" (Some 2) 2] in
  let c' := state_after (SQLiteCache.insert "c" (Some (PyInt 3)))
              (enabled 3) c in
  SQLiteCache.unique_keys (SQLiteCache.conn c)
  /\ "b"%string <> "c"%string
  /\ (forall r, In r (SQLiteCache.conn c') ->
        SQLiteCache.key r = "b"%string -> In r (SQLiteCache.conn c)).
Proof.
  intros c c'.
  assert (H1 : SQLiteCache.unique_keys (SQLiteCache.conn c)).
  { repeat constructor; simpl; intuition discriminate. }
  assert (H2 : "b"%string <> "c"%string) by discriminate.
  split; [exact H1|]. split; [exact H2|].
  exact (proj1 (durable_insert_other_keys (Value:=PyVal) c "c"
                  (Some (PyInt 3)) "b" (enabled 3) (enabled 4) H1 H2)).
Defined.

(** X12. A value that cannot be pickled: with caching enabled, [insert]
    on the durable cache raises the pickling error and the table is as it
    was; with caching disabled the same call returns [None] and raises
    nothing, as the gate comes before [pickle.dumps]. *)
Theorem durable_insert_unpicklable {Value Blob : Type}
  {pickle : Pickle Value Blob} (c : SQLiteCache.t Blob) k (v : option Value)
  e now :
  dumps v = Raised e ->
  SQLiteCache.insert k v (enabled now) c = (Raised e, c)
  /\ SQLiteCache.insert k v (disabled now) c = (Returned None, c).
Proof.
  intros Hb. split.
  - now apply sq_insert_raises.
  - unfold SQLiteCache.insert. now rewrite require_cache_enabled_off.
Qed.

Lemma durable_insert_unpicklable_witness :
  let c := SQLiteCache.mk 2 [SQLiteCache.mkRow "a" (Some 1) 1] in
  dumps (Some PyLambda) = Raised PicklingError (A:=option Z)
  /\ SQLiteCache.insert "f" (Some PyLambda) (enabled 3) c
     = (Raised PicklingError, c).
Proof.
  intros c.
  assert (H : dumps (Some PyLambda) = Raised PicklingError (A:=option Z))
    by reflexivity.
  split; [exact H|].
  exact (proj1 (durable_insert_unpicklable c "f" (Some PyLambda)
                  PicklingError 3 H)).
Defined.

(** X13. A durable cache whose capacity is zero or negative stores
    nothing, and empties the store it was opened on: when the number of
    rows to delete fits SQLite's 64-bit INTEGER, the table has no row
    after an enabled [insert] of a picklable value, whatever it held, and
    every [get] returns [None]. *)
Theorem durable_nonpositive_capacity_wipes {Value Blob : Type}
  {pickle : Pickle Value Blob} (c : SQLiteCache.t Blob) k (v : option Value)
  b now :
  SQLiteCache.max_size c <= 0 ->
  SQLiteCache.count c + 1 - SQLiteCache.max_size c <= 2 ^ 63 - 1 ->
  dumps v = Returned b ->
  let c' := state_after (SQLiteCache.insert k v) (enabled now) c in
  result_of (SQLiteCache.insert k v) (enabled now) c = Returned None
  /\ SQLiteCache.conn c' = []
  /\ forall k' env,
       SQLiteCache.get (Value:=Value) k' env c' = (Returned None, c').
Proof.
  intros HN Hfit Hb c'.
  assert (Hc' : c' = SQLiteCache.mk (SQLiteCache.max_size c) []).
  { unfold c', state_after. rewrite (sq_insert_on k v b) by auto.
    cbn [snd time_time enabled]. cbv zeta. f_equal.
    set (up := SQLiteCache.insert_or_replace k b now (SQLiteCache.conn c)).
    assert (Hlen : 1 <= SQLiteCache.select_count up).
    { unfold up, SQLiteCache.select_count, SQLiteCache.insert_or_replace.
      rewrite length_app. simpl. lia. }
    destruct (Z.gtb_spec (SQLiteCache.select_count up)
                (SQLiteCache.max_size c)); [|lia].
    unfold SQLiteCache.select_key_order_by_last_accessed_limit.
    rewrite limit_nonneg by lia.
    rewrite firstn_all2.
    - apply delete_all_keys. intros r Hr. apply in_map.
      exact (Permutation_in _ (Permutation_sym (order_by_perm up)) Hr).
    - rewrite length_map, (Permutation_length (order_by_perm up)).
      unfold SQLiteCache.select_count in *. lia. }
  split; [unfold result_of; now rewrite (sq_insert_on k v b)|].
  rewrite Hc'. split; [reflexivity|].
  intros k' env. apply sq_get_empty.
Qed.

Lemma durable_nonpositive_capacity_wipes_witness :
  let c := SQLiteCache.mk 0
             [SQLiteCache.mkRow "a" (Some 1) 1;
              SQLiteCache.mkRow "b" (Some 2) 2] in
  SQLiteCache.max_size c <= 0
  /\ SQLiteCache.count c + 1 - SQLiteCache.max_size c <= 2 ^ 63 - 1
  /\ dumps (Some (PyInt 3)) = Returned (Some 3)
  /\ SQLiteCache.conn
       (state_after (SQLiteCache.insert "c" (Some (PyInt 3))) (enabled 3) c)
     = [].
Proof.
  intros c.
  assert (H1 : SQLiteCache.max_size c <= 0) by discriminate.
  assert (H2 : SQLiteCache.count c + 1 - SQLiteCache.max_size c
               <= 2 ^ 63 - 1) by (vm_compute; discriminate).
  assert (H3 : dumps (Some (PyInt 3)) = Returned (Some 3)) by reflexivity.
  split; [exact H1|]. split; [exact H2|]. split; [exact H3|].
  exact (proj1 (proj2 (durable_nonpositive_capacity_wipes (Value:=PyVal) c "c"
                  (Some (PyInt 3)) (Some 3) 3 H1 H2 H3))).
Defined.

(** ** Runs of inserts under new keys *)

Lemma final_state_app {S A} (l1 l2 : list (Env * Py S A)) (self : S) :
  final_state (l1 ++ l2) self = final_state l2 (final_state l1 self).
Proof. unfold final_state. apply fold_left_app. Qed.

(** The last [n] items of a list that grows by one item. *)
Lemma last_items_step {A} (n : nat) (done : list A) (x : A) :
  (1 <= n)%nat ->
  (if (List.length (skipn (List.length done - n) done) <? n)%nat
   then skipn (List.length done - n) done
   else tl (skipn (List.length done - n) done)) ++ [x]
  = skipn (List.length (done ++ [x]) - n) (done ++ [x]).
Proof.
  intros Hn. rewrite length_app, length_skipn. simpl.
  destruct (Nat.ltb_spec
              (List.length done - (List.length done - n)) n) as [Hlt|Hge].
  - replace (List.length done - n)%nat with 0%nat by lia.
    replace (List.length done + 1 - n)%nat with 0%nat by lia.
    reflexivity.
  - replace (List.length done + 1 - n)%nat
      with (1 + (List.length done - n))%nat by lia.
    rewrite skipn_app.
    replace (1 + (List.length done - n) - List.length done)%nat
      with 0%nat by lia.
    rewrite <- skipn_skipn.
    now destruct (skipn (List.length done - n) done).
Qed.

Lemma in_skipn_in {A} (n : nat) (l : list A) (x : A) :
  In x (skipn n l) -> In x l.
Proof.
  intros Hx. rewrite <- (firstn_skipn n l). apply in_or_app. now right.
Qed.

Section InMemoryRuns.
Context {Value : Type}.

Lemma keys_count (c : InMemoryCache.t Value) :
  InMemoryCache.count c
  = Z.of_nat (List.length (OrderedDict.keys (InMemoryCache.cache c))).
Proof.
  unfold InMemoryCache.count, OrderedDict.len, OrderedDict.keys.
  now rewrite length_map.
Qed.

Lemma keys_tl (d : OrderedDict.t (option Value)) :
  OrderedDict.keys (tl d) = tl (OrderedDict.keys d).
Proof. now destruct d. Qed.
End InMemoryRuns.

(** X14. An in-memory cache of capacity [N >= 1] is built empty and keys
    that are all different are inserted in a row, caching enabled.  The
    cache then holds the last [N] keys of the run, in the order of the
    run (all of them when the run is shorter than [N]). *)
Theorem in_memory_distinct_inserts {Value : Type} (N : Z)
  (ops : list (Z * (string * option Value))) :
  1 <= N ->
  NoDup (map (fun op => fst (snd op)) ops) ->
  OrderedDict.keys
    (InMemoryCache.cache
       (final_state
          (map (fun op => (enabled (fst op),
                           InMemoryCache.insert (fst (snd op)) (snd (snd op))))
             ops)
          (InMemoryCache.mk N [])))
  = skipn (List.length ops - Z.to_nat N) (map (fun op => fst (snd op)) ops).
Proof.
  intros HN.
  set (run := fun ops : list (Z * (string * option Value)) =>
         final_state
           (map (fun op => (enabled (fst op),
                            InMemoryCache.insert (fst (snd op))
                              (snd (snd op)))) ops)
           (InMemoryCache.mk N [])).
  set (ks := fun ops : list (Z * (string * option Value)) =>
         map (fun op => fst (snd op)) ops).
  enough (Hinv : NoDup (ks ops) ->
            InMemoryCache.max_size (run ops) = N
            /\ OrderedDict.keys (InMemoryCache.cache (run ops))
               = skipn (List.length (ks ops) - Z.to_nat N) (ks ops)).
  { intros Hnd. destruct (Hinv Hnd) as [_ Hk]. unfold ks in Hk.
    rewrite length_map in Hk. exact Hk. }
  induction ops as [|[t [k v]] ops IH] using rev_ind; intros Hnd.
  - split; reflexivity.
  - unfold ks in Hnd. rewrite map_app in Hnd. simpl in Hnd.
    destruct (IH (NoDup_app_remove_r _ _ Hnd)) as [Hm Hkeys].
    unfold run. rewrite map_app, final_state_app. fold (run ops).
    cbn [map final_state fold_left fst snd].
    split; [now rewrite im_insert_max_size|].
    assert (Hk : OrderedDict.contains k (InMemoryCache.cache (run ops))
                 = false).
    { destruct (OrderedDict.contains k (InMemoryCache.cache (run ops)))
        eqn:E; [|reflexivity].
      apply contains_In_keys in E. rewrite Hkeys in E.
      apply in_skipn_in in E. exfalso.
      apply (NoDup_app_disjoint _ _ k Hnd E). now left. }
    rewrite in_memory_insert_new_key_aux by (assumption || lia).
    unfold ks. rewrite map_app. simpl map.
    rewrite <- (last_items_step (Z.to_nat N)) by lia.
    fold (ks ops). rewrite <- Hkeys.
    rewrite keys_count, Hm.
    unfold OrderedDict.keys at 1. rewrite map_app. simpl. f_equal.
    destruct (Z.ltb_spec
                (Z.of_nat (List.length
                   (OrderedDict.keys (InMemoryCache.cache (run ops))))) N);
      destruct (Nat.ltb_spec
                  (List.length
                     (OrderedDict.keys (InMemoryCache.cache (run ops))))
                  (Z.to_nat N)); try lia.
    + reflexivity.
    + apply keys_tl.
Qed.

Lemma in_memory_distinct_inserts_witness :
  let ops := [(1, ("a"%string, Some (PyInt 1)));
              (1, ("b"%string, Some (PyInt 2)));
              (2, ("c"%string, None))] in
  1 <= 2
  /\ NoDup (map (fun op => fst (snd op)) ops)
  /\ OrderedDict.keys
       (InMemoryCache.cache
          (final_state
             (map (fun op => (enabled (fst op),
                              InMemoryCache.insert (fst (snd op))
                                (snd (snd op)))) ops)
             (InMemoryCache.mk 2 [])))
     = ["b"; "c"]%string.
Proof.
  intros ops.
  assert (H1 : 1 <= 2) by discriminate.
  assert (H2 : NoDup (map (fun op => fst (snd op)) ops)).
  { repeat constructor; simpl; intuition discriminate. }
  split; [exact H1|]. split; [exact H2|].
  exact (in_memory_distinct_inserts 2 ops H1 H2).
Defined.

Section DurableRuns.
Context {Blob : Type}.

Lemma strongly_sorted_skipn {A} (R : A -> A -> Prop) (n : nat) (l : list A) :
  StronglySorted R l -> StronglySorted R (skipn n l).
Proof.
  revert l. induction n as [|n IH]; intros l Hs; [exact Hs|].
  destruct l as [|a l]; [exact Hs|]. simpl. apply IH. now inversion Hs.
Qed.

Lemma unique_keys_skipn (n : nat) (rows : list (SQLiteCache.Row Blob)) :
  SQLiteCache.unique_keys rows -> SQLiteCache.unique_keys (skipn n rows).
Proof.
  unfold SQLiteCache.unique_keys. intros Hnd.
  rewrite <- skipn_map. rewrite <- (firstn_skipn n) in Hnd.
  exact (NoDup_app_remove_l _ _ Hnd).
Qed.

Lemma sorted_snoc_le (l : list Z) (t : Z) :
  StronglySorted Z.le (l ++ [t]) -> Forall (fun x => x <= t) l.
Proof.
  induction l as [|a l IH]; simpl; intros Hs; [constructor|].
  inversion Hs as [|? ? Hs' Ha]; subst. constructor.
  - rewrite Forall_forall in Ha. apply Ha, in_or_app. right. now left.
  - now apply IH.
Qed.

Lemma sorted_app_l (l1 l2 : list Z) :
  StronglySorted Z.le (l1 ++ l2) -> StronglySorted Z.le l1.
Proof.
  induction l1 as [|a l1 IH]; simpl; intros Hs; [constructor|].
  inversion Hs as [|? ? Hs' Ha]; subst. constructor; [now apply IH|].
  apply Forall_app in Ha. tauto.
Qed.
End DurableRuns.

(** X15. A durable cache of capacity [N >= 1] is opened on a new store and
    keys that are all different are inserted in a row, caching enabled,
    with values that pickle and clock readings that never decrease (equal
    readings included).  The cache then holds the last [N] keys of the
    run, in the order of the run: the same keys as the in-memory cache
    holds after the same run. *)
Theorem durable_distinct_inserts {Value Blob : Type}
  {pickle : Pickle Value Blob} (N : Z)
  (ops : list (Z * (string * option Value))) :
  1 <= N ->
  NoDup (map (fun op => fst (snd op)) ops) ->
  StronglySorted Z.le (map fst ops) ->
  Forall (fun op => exists b : Blob, dumps (snd (snd op)) = Returned b) ops ->
  SQLiteCache.keys
    (final_state
       (map (fun op => (enabled (fst op),
                        SQLiteCache.insert (fst (snd op)) (snd (snd op))))
          ops)
       (SQLiteCache.mk (Blob:=Blob) N []))
  = skipn (List.length ops - Z.to_nat N) (map (fun op => fst (snd op)) ops).
Proof.
  intros HN.
  set (run := fun ops : list (Z * (string * option Value)) =>
         final_state
           (map (fun op => (enabled (fst op),
                            SQLiteCache.insert (fst (snd op))
                              (snd (snd op)))) ops)
           (SQLiteCache.mk (Blob:=Blob) N [])).
  set (ks := fun ops : list (Z * (string * option Value)) =>
         map (fun op => fst (snd op)) ops).
  enough (Hinv : NoDup (ks ops) -> StronglySorted Z.le (map fst ops) ->
            Forall (fun op => exists b : Blob,
                      dumps (snd (snd op)) = Returned b) ops ->
            SQLiteCache.max_size (run ops) = N
            /\ SQLiteCache.keys (run ops)
               = skipn (List.length (ks ops) - Z.to_nat N) (ks ops)
            /\ StronglySorted (@SQLiteCache.older Blob)
                 (SQLiteCache.conn (run ops))
            /\ SQLiteCache.unique_keys (SQLiteCache.conn (run ops))
            /\ forall r, In r (SQLiteCache.conn (run ops)) ->
                 In (SQLiteCache.last_accessed r) (map fst ops)).
  { intros Hnd Hs Hp. destruct (Hinv Hnd Hs Hp) as [_ [Hk _]].
    unfold ks in Hk. rewrite length_map in Hk. exact Hk. }
  induction ops as [|[t [k v]] ops IH] using rev_ind; intros Hnd Hs Hp.
  - repeat split; try constructor. intros r [].
  - unfold ks in Hnd. rewrite map_app in Hnd, Hs. simpl in Hnd, Hs.
    apply Forall_app in Hp. destruct Hp as [Hp Hv].
    inversion Hv as [|? ? [b Hb] _]; subst. simpl in Hb.
    destruct (IH (NoDup_app_remove_r _ _ Hnd) (sorted_app_l _ _ Hs) Hp)
      as [Hm [Hkeys [Hsorted [Hu Hstamps]]]].
    assert (Hfresh : SQLiteCache.not_after t (SQLiteCache.conn (run ops))).
    { unfold SQLiteCache.not_after. apply Forall_forall. intros r Hr.
      pose proof (sorted_snoc_le _ _ Hs) as Hle.
      rewrite Forall_forall in Hle. apply Hle, Hstamps, Hr. }
    assert (Hk : ~ In k (map (@SQLiteCache.key Blob)
                           (SQLiteCache.conn (run ops)))).
    { intros E. fold (SQLiteCache.keys (run ops)) in E. rewrite Hkeys in E.
      apply in_skipn_in in E.
      apply (NoDup_app_disjoint _ _ k Hnd E). now left. }
    unfold run. rewrite map_app, final_state_app. fold (run ops).
    cbn [map final_state fold_left fst snd].
    rewrite (sq_insert_ascending (run ops) k v b t Hb Hsorted Hu Hfresh Hk).
    cbn [SQLiteCache.max_size SQLiteCache.conn].
    set (j := Z.to_nat (SQLiteCache.count (run ops) + 1
                        - SQLiteCache.max_size (run ops))).
    split; [exact Hm|]. split; [|split; [|split]].
    + unfold SQLiteCache.keys. cbn [SQLiteCache.conn].
      rewrite <- skipn_map, map_app. simpl map.
      fold (SQLiteCache.keys (run ops)).
      unfold ks. rewrite map_app. simpl map.
      rewrite <- (last_items_step (Z.to_nat N)) by lia.
      fold (ks ops). rewrite <- Hkeys.
      assert (Hcount : SQLiteCache.count (run ops)
                       = Z.of_nat (List.length (SQLiteCache.keys (run ops)))).
      { unfold SQLiteCache.count, SQLiteCache.select_count, SQLiteCache.keys.
        now rewrite length_map. }
      assert (Hbound : (List.length (SQLiteCache.keys (run ops))
                        <= Z.to_nat N)%nat).
      { rewrite Hkeys, length_skipn. lia. }
      destruct (Nat.ltb_spec (List.length (SQLiteCache.keys (run ops)))
                  (Z.to_nat N)) as [Hlt|Hge].
      * replace j with 0%nat by (unfold j; lia). reflexivity.
      * replace j with 1%nat by (unfold j; lia).
        destruct (SQLiteCache.keys (run ops)); [simpl in *; lia|reflexivity].
    + apply strongly_sorted_skipn. now apply sorted_snoc.
    + apply unique_keys_skipn. now apply unique_keys_snoc.
    + intros r Hr. apply in_skipn_in in Hr. rewrite map_app.
      apply in_app_or in Hr. apply in_or_app.
      destruct Hr as [Hr|[<-|[]]]; [left; now apply Hstamps|right; now left].
Qed.

Lemma durable_distinct_inserts_witness :
  let ops := [(1, ("a"%string, Some (PyInt 1)));
              (1, ("b"%string, Some (PyInt 2)));
              (2, ("c"%string, None))] in
  1 <= 2
  /\ NoDup (map (fun op => fst (snd op)) ops)
  /\ StronglySorted Z.le (map fst ops)
  /\ SQLiteCache.keys
       (final_state
          (map (fun op => (enabled (fst op),
                           SQLiteCache.insert (fst (snd op))
                             (snd (snd op)))) ops)
          (SQLiteCache.mk (Blob:=option Z) 2 []))
     = ["b"; "c"]%string.
Proof.
  intros ops.
  assert (H1 : 1 <= 2) by discriminate.
  assert (H2 : NoDup (map (fun op => fst (snd op)) ops)).
  { repeat constructor; simpl; intuition discriminate. }
  assert (H3 : StronglySorted Z.le (map fst ops)).
  { repeat constructor; discriminate. }
  assert (H4 : Forall (fun op => exists b : option Z,
                         dumps (snd (snd op)) = Returned b) ops).
  { repeat constructor; eexists; reflexivity. }
  split; [exact H1|]. split; [exact H2|]. split; [exact H3|].
  exact (durable_distinct_inserts (Value:=PyVal) 2 ops H1 H2 H3 H4).
Defined.

(** A [get] of a key whose row already carries the clock reading leaves
    the table as it was. *)
Lemma sq_get_same_stamp {Value Blob : Type}
  {pickle : Pickle Value Blob} (c : SQLiteCache.t Blob) k blob
  (v : option Value) now :
  SQLiteCache.select_value k (SQLiteCache.conn c) = Some blob ->
  loads blob = Returned v ->
  (forall r, In r (SQLiteCache.conn c) -> SQLiteCache.key r = k ->
     SQLiteCache.last_accessed r = now) ->
  SQLiteCache.get (Value:=Value) k (enabled now) c = (Returned v, c).
Proof.
  intros Hsel Hload Hnow. rewrite sq_get_on by reflexivity.
  rewrite Hsel, Hload. f_equal. destruct c as [N rows]. f_equal.
  cbn [SQLiteCache.conn SQLiteCache.max_size] in *.
  unfold SQLiteCache.update_last_accessed.
  rewrite <- (map_id rows) at 2. apply map_ext_in. intros r Hr.
  destruct (String.eqb_spec (SQLiteCache.key r) k) as [Hk|Hk]; [|reflexivity].
  rewrite <- (Hnow r Hr Hk). now destruct r.
Qed.

(** X16. A read at the clock reading of the write leaves no trace.  With
    caching enabled and a capacity of at least 1, an [insert] of a
    picklable value into a durable cache with unique keys and no row
    stamped after the clock reading, followed by a [get] of the same key
    for which [_get_time] returns the same reading, returns the value and
    leaves the cache exactly as the [insert] left it. *)
Theorem durable_get_same_second {Value Blob : Type}
  {pickle : Pickle Value Blob} (c : SQLiteCache.t Blob) k (v : option Value)
  b now :
  1 <= SQLiteCache.max_size c ->
  SQLiteCache.unique_keys (SQLiteCache.conn c) ->
  SQLiteCache.not_after now (SQLiteCache.conn c) ->
  dumps v = Returned b ->
  let c1 := state_after (SQLiteCache.insert k v) (enabled now) c in
  SQLiteCache.get (Value:=Value) k (enabled now) c1 = (Returned v, c1).
Proof.
  intros HN Hu Hf Hb c1.
  destruct (inserted_shape (SQLiteCache.max_size c) k b now
              (SQLiteCache.conn c) HN Hu Hf)
    as [pre [Heq [_ [Hk _]]]].
  cbv zeta in Heq.
  assert (H1 : c1 = SQLiteCache.mk (SQLiteCache.max_size c)
                      (pre ++ [SQLiteCache.mkRow k b now])).
  { unfold c1, state_after. rewrite (sq_insert_on k v b) by auto.
    cbn [snd time_time enabled]. cbv zeta. now rewrite Heq. }
  rewrite H1. apply (sq_get_same_stamp _ k b).
  - cbn [SQLiteCache.conn]. now apply select_value_snoc.
  - exact (loads_dumps v b Hb).
  - cbn [SQLiteCache.conn]. intros r Hr Hkr.
    apply in_app_or in Hr. destruct Hr as [Hr|[<-|[]]]; [|reflexivity].
    exfalso. apply Hk. rewrite <- Hkr. now apply in_map.
Qed.

Lemma durable_get_same_second_witness :
  let c := SQLiteCache.mk 2
             [SQLiteCache.mkRow "a" (Some 1) 7;
              SQLiteCache.mkRow "b" (Some 2) 7] in
  let c1 := state_after (SQLiteCache.insert "c" (Some (PyInt 3)))
              (enabled 7) c in
  1 <= SQLiteCache.max_size c
  /\ SQLiteCache.unique_keys (SQLiteCache.conn c)
  /\ SQLiteCache.not_after 7 (SQLiteCache.conn c)
  /\ dumps (Some (PyInt 3)) = Returned (Some 3)
  /\ SQLiteCache.get "c" (enabled 7) c1 = (Returned (Some (PyInt 3)), c1).
Proof.
  intros c c1.
  assert (H1 : 1 <= SQLiteCache.max_size c) by discriminate.
  assert (H2 : SQLiteCache.unique_keys (SQLiteCache.conn c)).
  { repeat constructor; simpl; intuition discriminate. }
  assert (H3 : SQLiteCache.not_after 7 (SQLiteCache.conn c)).
  { repeat constructor; simpl; discriminate. }
  assert (H4 : dumps (Some (PyInt 3)) = Returned (Some 3)) by reflexivity.
  split; [exact H1|]. split; [exact H2|]. split; [exact H3|].
  split; [exact H4|].
  exact (durable_get_same_second (Value:=PyVal) c "c" (Some (PyInt 3))
           (Some 3) 7 H1 H2 H3 H4).
Defined.

(** ** Bulk eviction from any store *)

(** Two enabled inserts under different keys, the second not earlier than
    the first, fill a durable cache of capacity 2 with their two rows,
    whatever it held, when no row is stamped after the first reading. *)
Lemma sq_two_inserts_fill {Value Blob : Type} {pickle : Pickle Value Blob}
  (c : SQLiteCache.t Blob) k1 (v1 : option Value) b1 k2 (v2 : option Value) b2
  t1 t2 :
  SQLiteCache.max_size c = 2 ->
  SQLiteCache.unique_keys (SQLiteCache.conn c) ->
  SQLiteCache.not_after t1 (SQLiteCache.conn c) ->
  k1 <> k2 -> t1 <= t2 ->
  dumps v1 = Returned b1 -> dumps v2 = Returned b2 ->
  state_after (SQLiteCache.insert k2 v2) (enabled t2)
    (state_after (SQLiteCache.insert k1 v1) (enabled t1) c)
  = SQLiteCache.mk 2 [SQLiteCache.mkRow k1 b1 t1; SQLiteCache.mkRow k2 b2 t2].
Proof.
  intros HN Hu Hf Hne H12 Hb1 Hb2.
  destruct (inserted_shape (SQLiteCache.max_size c) k1 b1 t1
              (SQLiteCache.conn c) ltac:(lia) Hu Hf)
    as [pre [Heq [Hpu [Hpk Hsub]]]].
  cbv zeta in Heq.
  set (r1 := SQLiteCache.mkRow k1 b1 t1) in *.
  set (r2 := SQLiteCache.mkRow k2 b2 t2).
  assert (H1 : state_after (SQLiteCache.insert k1 v1) (enabled t1) c
               = SQLiteCache.mk 2 (pre ++ [r1])).
  { unfold state_after. rewrite (sq_insert_on k1 v1 b1) by auto.
    cbn [snd time_time enabled]. cbv zeta. now rewrite Heq, HN. }
  rewrite H1.
  assert (Hpre : Forall (fun r => SQLiteCache.last_accessed r <= t1) pre).
  { unfold SQLiteCache.not_after in Hf. rewrite Forall_forall in *.
    intros r Hr. apply Hf, Hsub, Hr. }
  set (pre2 := filter (fun r => negb (String.eqb (SQLiteCache.key r) k2)) pre).
  assert (Hup : SQLiteCache.insert_or_replace k2 b2 t2 (pre ++ [r1])
                = pre2 ++ [r1] ++ [r2]).
  { unfold SQLiteCache.insert_or_replace. rewrite filter_app. simpl.
    apply String.eqb_neq in Hne. rewrite Hne. simpl.
    now rewrite <- app_assoc. }
  assert (Hu1 : SQLiteCache.unique_keys (pre ++ [r1]))
    by (apply unique_keys_snoc; assumption).
  assert (Huu : SQLiteCache.unique_keys (pre2 ++ [r1] ++ [r2])).
  { rewrite <- Hup. now apply insert_or_replace_unique. }
  assert (Hpre2 : Forall (fun r => SQLiteCache.last_accessed r
                                   <= SQLiteCache.last_accessed r1) pre2).
  { rewrite Forall_forall in *. intros r Hr. apply filter_In in Hr.
    simpl. apply Hpre. tauto. }
  pose proof (inserted_count 2 k2 b2 t2 (pre ++ [r1]) ltac:(lia) Hu1)
    as Hcount.
  unfold state_after. rewrite (sq_insert_on k2 v2 b2) by auto.
  cbn [snd SQLiteCache.conn SQLiteCache.max_size time_time enabled].
  f_equal. cbv zeta in Hcount |- *. rewrite Hup in Hcount |- *.
  destruct (Z.gtb_spec (SQLiteCache.select_count (pre2 ++ [r1] ++ [r2])) 2)
    as [Hgt|Hle].
  - destruct (enforce_keeps_last_two 2 pre2 r1 r2 ltac:(lia) Huu Hpre2 H12
                Hgt) as [Hi1 Hi2].
    cbv zeta in Hi1, Hi2.
    set (ks := SQLiteCache.select_key_order_by_last_accessed_limit
                 (SQLiteCache.select_count (pre2 ++ [r1] ++ [r2]) - 2)
                 (pre2 ++ [r1] ++ [r2])) in *.
    apply delete_where_key_in_In in Hi1. apply delete_where_key_in_In in Hi2.
    assert (He1 : existsb (String.eqb (SQLiteCache.key r1)) ks = false).
    { destruct (existsb (String.eqb (SQLiteCache.key r1)) ks) eqn:E;
        [|reflexivity]. apply existsb_eqb_In in E. tauto. }
    assert (He2 : existsb (String.eqb (SQLiteCache.key r2)) ks = false).
    { destruct (existsb (String.eqb (SQLiteCache.key r2)) ks) eqn:E;
        [|reflexivity]. apply existsb_eqb_In in E. tauto. }
    unfold SQLiteCache.delete_where_key_in in *.
    rewrite filter_app in Hcount |- *. cbn [app filter] in Hcount |- *.
    rewrite He1, He2 in Hcount |- *. cbn [negb] in Hcount |- *.
    unfold SQLiteCache.select_count in Hcount.
    rewrite length_app in Hcount. cbn [List.length] in Hcount.
    destruct (filter _ pre2); [reflexivity|cbn [List.length] in Hcount; lia].
  - unfold SQLiteCache.select_count in Hle. rewrite length_app in Hle.
    simpl in Hle. destruct pre2; [reflexivity|simpl in Hle; lia].
Qed.

(** C6, as amended.  A durable cache of capacity 2 that a program can
    hold, whatever it stores; five distinct keys are inserted, caching
    enabled, with values that pickle, with no read in between, at clock
    readings that are not earlier than the readings the cache has seen
    and never decrease (equal readings, inserts within one clock second,
    included).  The cache then holds the fourth and the fifth key and no
    other: [get] returns [None] for the first three keys and the stored
    values for the last two. *)
Theorem durable_bulk_eviction_monotone {Value Blob : Type}
  {pickle : Pickle Value Blob}
  (k1 k2 k3 k4 k5 : string) (v1 v2 v3 v4 v5 : option Value)
  (b1 b2 b3 b4 b5 : Blob) (t0 t1 t2 t3 t4 t5 : Z) (c0 : SQLiteCache.t Blob) :
  SQLiteCache.reachable (Value:=Value) t0 c0 ->
  SQLiteCache.max_size c0 = 2 ->
  NoDup [k1; k2; k3; k4; k5] ->
  t0 <= t1 /\ t1 <= t2 /\ t2 <= t3 /\ t3 <= t4 /\ t4 <= t5 ->
  dumps v1 = Returned b1 -> dumps v2 = Returned b2 ->
  dumps v3 = Returned b3 -> dumps v4 = Returned b4 ->
  dumps v5 = Returned b5 ->
  let c :=
    final_state
      [(enabled t1, SQLiteCache.insert k1 v1);
       (enabled t2, SQLiteCache.insert k2 v2);
       (enabled t3, SQLiteCache.insert k3 v3);
       (enabled t4, SQLiteCache.insert k4 v4);
       (enabled t5, SQLiteCache.insert k5 v5)] c0 in
  SQLiteCache.keys c = [k4; k5]
  /\ (forall k now, In k [k1; k2; k3] ->
        result_of (SQLiteCache.get k) (enabled now) c = Returned None)
  /\ (forall now, result_of (SQLiteCache.get k4) (enabled now) c = Returned v4)
  /\ (forall now, result_of (SQLiteCache.get k5) (enabled now) c = Returned v5).
Proof.
  intros Hr HN Hnd [H01 [H12 [H23 [H34 H45]]]] Hb1 Hb2 Hb3 Hb4 Hb5 c.
  destruct (sq_reachable_inv t0 c0 Hr) as [Hu Hf0].
  assert (Hf : SQLiteCache.not_after t1 (SQLiteCache.conn c0))
    by exact (not_after_mono _ _ _ H01 Hf0).
  assert (Hne : k1 <> k2 /\ k1 <> k3 /\ k1 <> k4 /\ k1 <> k5 /\ k2 <> k3
                /\ k2 <> k4 /\ k2 <> k5 /\ k3 <> k4 /\ k3 <> k5 /\ k4 <> k5).
  { repeat match goal with
           | H : NoDup (_ :: _) |- _ => inversion H; clear H; subst
           end.
    simpl in *. intuition. }
  destruct Hne as [N12 [N13 [N14 [N15 [N23 [N24 [N25 [N34 [N35 N45]]]]]]]]].
  assert (Hc : c = SQLiteCache.mk 2
                     [SQLiteCache.mkRow k4 b4 t4; SQLiteCache.mkRow k5 b5 t5]).
  { unfold c, final_state. cbn [fold_left].
    rewrite (sq_two_inserts_fill c0 k1 v1 b1 k2 v2 b2 t1 t2) by assumption.
    rewrite (sq_insert_ascending _ k3 v3 b3 t3 Hb3);
      [|repeat constructor; unfold SQLiteCache.older; simpl; lia
       |repeat constructor; simpl; intuition
       |repeat constructor; simpl; lia|simpl; intuition].
    cbn.
    rewrite (sq_insert_ascending _ k4 v4 b4 t4 Hb4);
      [|repeat constructor; unfold SQLiteCache.older; simpl; lia
       |repeat constructor; simpl; intuition
       |repeat constructor; simpl; lia|simpl; intuition].
    cbn.
    rewrite (sq_insert_ascending _ k5 v5 b5 t5 Hb5);
      [|repeat constructor; unfold SQLiteCache.older; simpl; lia
       |repeat constructor; simpl; intuition
       |repeat constructor; simpl; lia|simpl; intuition].
    reflexivity. }
  rewrite Hc. unfold result_of. repeat split.
  - intros k now Hin. rewrite sq_get_on by reflexivity.
    cbn [SQLiteCache.conn].
    rewrite select_value_absent; [reflexivity|].
    simpl in *. intuition congruence.
  - intros now. rewrite sq_get_on by reflexivity. simpl.
    rewrite String.eqb_refl. now rewrite (loads_dumps v4 b4 Hb4).
  - intros now. rewrite sq_get_on by reflexivity. simpl.
    apply String.eqb_neq in N45. rewrite N45, String.eqb_refl.
    now rewrite (loads_dumps v5 b5 Hb5).
Qed.

Lemma durable_bulk_eviction_monotone_witness :
  let ins k z := SQLiteCache.insert (Value:=PyVal) k (Some (PyInt z)) in
  let c0 := state_after (SQLiteCache.perform (Insert "x" (Some (PyInt 0))))
              (enabled 90) (SQLiteCache.mk 2 []) in
  let c :=
    final_state
      [(enabled 100, ins "k1"%string 1); (enabled 100, ins "k2"%string 2);
       (enabled 100, ins "k3"%string 3); (enabled 100, ins "k4"%string 4);
       (enabled 101, ins "k5"%string 5)] c0 in
  SQLiteCache.reachable (Value:=PyVal) 90 c0
  /\ SQLiteCache.max_size c0 = 2
  /\ NoDup ["k1"; "k2"; "k3"; "k4"; "k5"]%string
  /\ (90 <= 100 /\ 100 <= 100 /\ 100 <= 100 /\ 100 <= 100 /\ 100 <= 101)
  /\ SQLiteCache.keys c = ["k4"; "k5"]%string
  /\ result_of (SQLiteCache.get (Value:=PyVal) "k1") (enabled 102) c
     = Returned None
  /\ result_of (SQLiteCache.get (Value:=PyVal) "k5") (enabled 102) c
     = Returned (Some (PyInt 5)).
Proof.
  intros ins c0 c.
  assert (H89 : 89 <= time_time (enabled 90)) by discriminate.
  assert (Hr : SQLiteCache.reachable (Value:=PyVal) 90 c0).
  { apply (SQLiteCache.reachable_call 89 (SQLiteCache.mk 2 []) (enabled 90)
             (Insert "x"%string (Some (PyInt 0)))); [|exact H89].
    apply (SQLiteCache.reachable_new 2). reflexivity. }
  assert (HN : SQLiteCache.max_size c0 = 2) by reflexivity.
  assert (Hnd : NoDup ["k1"; "k2"; "k3"; "k4"; "k5"]%string).
  { repeat constructor; simpl; intuition discriminate. }
  assert (Ht : 90 <= 100 /\ 100 <= 100 /\ 100 <= 100 /\ 100 <= 100
               /\ 100 <= 101).
  { repeat split; discriminate. }
  assert (Hd : forall z, dumps (Some (PyInt z)) = Returned (Some z))
    by reflexivity.
  destruct (durable_bulk_eviction_monotone (Value:=PyVal) (Blob:=option Z)
              "k1" "k2" "k3" "k4" "k5"
              (Some (PyInt 1)) (Some (PyInt 2)) (Some (PyInt 3))
              (Some (PyInt 4)) (Some (PyInt 5))
              (Some 1) (Some 2) (Some 3) (Some 4) (Some 5)
              90 100 100 100 100 101 c0
              Hr HN Hnd Ht (Hd 1) (Hd 2) (Hd 3) (Hd 4) (Hd 5))
    as [Hkeys [Hold [_ Hk5]]].
  split; [exact Hr|]. split; [exact HN|]. split; [exact Hnd|].
  split; [exact Ht|]. split; [exact Hkeys|].
  split; [apply Hold; now left|apply Hk5].
Defined.

(** C6, as the claim has it, fails.  Five distinct keys are inserted into
    a new durable cache of capacity 2; the clock reads 100 for the first
    four inserts, is then set back and reads 99 for the fifth.  The fifth
    [insert] deletes the row it has just written: the cache holds the
    third and the fourth key, and [get] of the fifth returns [None]. *)
Lemma durable_bulk_eviction_counterexample :
  let ins k z := SQLiteCache.insert (Value:=PyVal) k (Some (PyInt z)) in
  let c :=
    final_state
      [(enabled 100, ins "k1"%string 1); (enabled 100, ins "k2"%string 2);
       (enabled 100, ins "k3"%string 3); (enabled 100, ins "k4"%string 4);
       (enabled 99, ins "k5"%string 5)] (SQLiteCache.mk 2 []) in
  SQLiteCache.keys c = ["k3"; "k4"]%string
  /\ SQLiteCache.keys c <> ["k4"; "k5"]%string
  /\ result_of (SQLiteCache.get (Value:=PyVal) "k5") (enabled 100) c
     = Returned None
  /\ result_of (SQLiteCache.get (Value:=PyVal) "k3") (enabled 100) c
     = Returned (Some (PyInt 3)).
Proof.
  split; [reflexivity|]. split; [discriminate|]. split; reflexivity.
Qed.
